(** * Semaphore-free executor (ocrmypdf/extra_plugins/semfree.py)

    A shallow embedding of the executor that divides the work among worker
    processes before any of them starts.  Python integers are unbounded ([Z]);
    platform limits (memory, [sys.maxsize]) are not part of the model. *)

From Stdlib Require Import String.
From Stdlib Require Import List ZArith Lia Bool Permutation PeanoNat.
Import ListNotations.

(** A call either yields a value or raises. *)
Inductive raising (E A : Type) : Type :=
| Ok (a : A)
| Raise (e : E).
Arguments Ok {E A} a.
Arguments Raise {E A} e.

(** Exception objects.  [E] is the type of the errors the task callable and
    the initializer raise (instances of [Exception], among them
    [InputFileError] of the SIGBUS handler); the named ones are raised by the
    interpreter and the library: [ValueError] by [islice] on a negative stop
    and by [list.remove] on a missing element, [TypeError] by unpacking [None]
    as an argument tuple and by raising an object that is no exception,
    [AttributeError] by reading [record.name] off an object that has none. *)
Inductive Exception (E : Type) : Type :=
| ValueError
| TypeError
| AttributeError
| NotImplementedError (text : string)
| TaskError (e : E).
Arguments ValueError {E}.
Arguments TypeError {E}.
Arguments AttributeError {E}.
Arguments NotImplementedError {E} text.
Arguments TaskError {E} e.

(** ** Python objects found in a task-argument list *)

Section Objects.

Variable E : Type.

(** [Args] is the type of argument tuples. *)
Variable Args : Type.

(** An element of [task_arguments] is either [None] or an argument tuple;
    [None] is also what [zip_longest] fills short columns with. *)
Inductive object : Type :=
| PyNone
| PyArgs (a : Args).

(** [args is not None] *)
Definition is_not_None (o : object) : bool :=
  match o with
  | PyNone => false
  | PyArgs _ => true
  end.

(** ** itertools *)

(** [bool(chunk)] of a list: non-empty lists are truthy. *)
Definition truthy {A : Type} (chunk : list A) : bool :=
  match chunk with
  | [] => false
  | _ :: _ => true
  end.

(** [list(islice(iterator, n))] on a list iterator: the next [n] elements,
    and the iterator advanced past them. *)
Definition islice {A : Type} (iterator : list A) (n : nat) : list A * list A :=
  (firstn n iterator, skipn n iterator).

(** [takewhile(bool, (list(islice(iterator, n)) for _ in repeat(None)))]:
    chunks are drawn from the shared iterator until one is empty.  [fuel]
    bounds the number of chunks drawn. *)
Fixpoint take_chunks {A : Type} (fuel n : nat) (iterator : list A)
  : list (list A) :=
  match fuel with
  | O => []
  | S fuel' =>
      let (chunk, iterator') := islice iterator n in
      if truthy chunk then chunk :: take_chunks fuel' n iterator' else []
  end.

(** [list(split_every(n, iterable))] *)
Definition split_every {A : Type} (n : Z) (iterable : list A)
  : raising (Exception E) (list (list A)) :=
  if (n <? 0)%Z then Raise ValueError
  else Ok (take_chunks (S (length iterable)) (Z.to_nat n) iterable).

(** [zip_longest] applied to the rows: while some row still has an element,
    emit the tuple of the next element of every row, [None] standing for an
    exhausted row.  [fuel] bounds the number of tuples; [zip_longest] takes
    the length of the longest row. *)
Definition next_or_None (row : list object) : object :=
  match row with
  | [] => PyNone
  | o :: _ => o
  end.

Definition exhausted (row : list object) : bool := negb (truthy row).

Fixpoint zip_longest_fuel (fuel : nat) (rows : list (list object))
  : list (list object) :=
  match fuel with
  | O => []
  | S fuel' =>
      if forallb exhausted rows then []
      else map next_or_None rows :: zip_longest_fuel fuel' (map (@tl _) rows)
  end.

Definition longest (rows : list (list object)) : nat :=
  fold_right (fun row m => Nat.max (length row) m) 0 rows.

Definition zip_longest (rows : list (list object)) : list (list object) :=
  zip_longest_fuel (longest rows) rows.

(** [[args for args in chunk if args is not None]] *)
Definition worker_args (chunk : list object) : list object :=
  filter is_not_None chunk.

(** [grouped_args] of [_execute]. *)
Definition grouped_args (max_workers : Z) (task_arguments : list object)
  : raising (Exception E) (list (list object)) :=
  match split_every max_workers task_arguments with
  | Raise e => Raise e
  | Ok chunks => Ok (zip_longest chunks)
  end.

(** The task groups handed to the workers, one per element of
    [grouped_args]. *)
Definition task_groups (max_workers : Z) (task_arguments : list object)
  : raising (Exception E) (list (list object)) :=
  match grouped_args max_workers task_arguments with
  | Raise e => Raise e
  | Ok grouped => Ok (map worker_args grouped)
  end.

End Objects.

Arguments PyNone {Args}.
Arguments PyArgs {Args} a.
Arguments is_not_None {Args} o.
Arguments split_every {E A} n iterable.
Arguments next_or_None {Args} row.
Arguments exhausted {Args} row.
Arguments zip_longest_fuel {Args} fuel rows.
Arguments longest {Args} rows.
Arguments zip_longest {Args} rows.
Arguments worker_args {Args} chunk.
Arguments grouped_args {E Args} max_workers task_arguments.
Arguments task_groups {E Args} max_workers task_arguments.

(** ** Messages on a worker's channel *)

(** [class MessageType(Enum)] *)
Inductive MessageType : Type :=
| exception
| result
| complete.

(** The first component of a message: a [MessageType] member, or a string
    (the handler of forwarded log records sends ['log']). *)
Inductive tag : Type :=
| Member (t : MessageType)
| Str (s : string).

Definition tag_eqb (t u : tag) : bool :=
  match t, u with
  | Member exception, Member exception => true
  | Member result, Member result => true
  | Member complete, Member complete => true
  | Str s, Str s' => String.eqb s s'
  | _, _ => false
  end.

(** The attributes of a [logging.LogRecord] that matter here: the name of the
    logger, the level, the message. *)
Record LogRecord : Type := {
  record_name : string;
  record_levelno : Z;
  record_msg : string
}.

Section Executor.

(** [E]: errors (instances of [Exception]) raised by the callables;
    [B]: exceptions outside [Exception] ([SystemExit], [KeyboardInterrupt]),
    which [except Exception] does not catch;
    [Args]: argument tuples; [Value]: task results. *)
Variables E B Args Value : Type.

(** The second component of a message. *)
Inductive payload : Type :=
| NoneObject
| ResultObject (v : Value)
| ExceptionObject (e : Exception E)
| RecordObject (r : LogRecord).

Definition message : Type := (tag * payload)%type.

(** What a call of the task does as far as the executor sees it. *)
Inductive outcome : Type :=
| Returns (v : Value)
| RaisesException (e : Exception E)
| RaisesBaseException (b : B).

(** What escapes from a process or from the entry point. *)
Inductive thrown : Type :=
| Error (e : Exception E)
| BaseError (b : B).

(** The task callable: the log records it emits (those that reach the
    handlers of the root logger) and how the call ends. *)
Variable task : Args -> list LogRecord * outcome.

(** The initializer: the records it emits, and what it raises if it
    does not return. *)
Variable user_init : list LogRecord * option thrown.

(** Whether the platform's [signal] module has [SIGBUS]. *)
Variable has_SIGBUS : bool.

(** [task( *args)]: unpacking [None] raises [TypeError]. *)
Definition call (args : object Args) : list LogRecord * outcome :=
  match args with
  | PyNone => ([], RaisesException TypeError)
  | PyArgs a => task a
  end.

(** Connections and processes are named by their position in the lists
    [connections] and [processes] that [_execute] builds. *)
Definition Connection : Type := nat.
Definition Process : Type := nat.

(** What the executor does, in the order it does it. *)
Inductive event : Type :=
(* in a worker process *)
| SigbusHandlerInstalled
| LogHandlersRemoved
| LevelSet (loglevel : Z)
| HandlerAdded (conn : Connection)
| InitCalled
| TaskCalled (args : object Args)
| Sent (conn : Connection) (m : message)
| Closed (conn : Connection)
(* in the coordinator *)
| PipeCreated (conn : Connection)
| ProcessCreated (p : Process) (conn : Connection) (loglevel : Z)
    (task_args : list (object Args))
| Started (p : Process)
| ProgressEntered
| ProgressExited
| TaskFinished (msg : payload)
| LogHandled (logger : string) (record : LogRecord)
| Terminated (p : Process)
| Joined (p : Process).

(** *** The worker *)

(** [ConnectionLogHandler.enqueue] *)
Definition enqueue (conn : Connection) (record : LogRecord) : event :=
  Sent conn (Str "log", RecordObject record).

(** How the [for] loop of [process_loop] is left. *)
Inductive loop_exit : Type :=
| Exhausted
| Broke
| Propagated (b : B).

(** The [for args in task_args] loop of [process_loop]. *)
Fixpoint task_loop (conn : Connection) (task_args : list (object Args))
  : list event * loop_exit :=
  match task_args with
  | [] => ([], Exhausted)
  | args :: rest =>
      let (records, out) := call args in
      let called := TaskCalled args :: map (enqueue conn) records in
      match out with
      | RaisesException e =>
          (called ++ [Sent conn (Member exception, ExceptionObject e)], Broke)
      | RaisesBaseException b => (called, Propagated b)
      | Returns v =>
          let (later, how) := task_loop conn rest in
          (called ++ Sent conn (Member result, ResultObject v) :: later, how)
      end
  end.

(** How a process ends. *)
Inductive process_exit : Type :=
| Exited
| Died (t : thrown).

(** The loop and what follows it in [process_loop]. *)
Definition run_tasks (conn : Connection) (task_args : list (object Args))
  : list event * process_exit :=
  let (evs, how) := task_loop conn task_args in
  match how with
  | Propagated b => (evs, Died (BaseError b))
  | Exhausted | Broke =>
      (evs ++ [Sent conn (Member complete, NoneObject); Closed conn], Exited)
  end.

Definition process_loop (conn : Connection) (loglevel : Z)
  (task_args : list (object Args)) : list event * process_exit :=
  let setup :=
    (if has_SIGBUS then [SigbusHandlerInstalled] else [])
    ++ [LogHandlersRemoved; LevelSet loglevel; HandlerAdded conn] in
  let (records, raised) := user_init in
  let init := InitCalled :: map (enqueue conn) records in
  match raised with
  | Some t => (setup ++ init, Died t)
  | None =>
      let (evs, how) := run_tasks conn task_args in
      (setup ++ init ++ evs, how)
  end.

(** The messages a trace puts on the channel, in order. *)
Fixpoint sent (trace : list event) : list message :=
  match trace with
  | [] => []
  | Sent _ m :: rest => m :: sent rest
  | _ :: rest => sent rest
  end.

(** *** The coordinator *)

(** An object that [wait] reports ready. *)
Inductive ready_object : Type :=
| AConnection (c : Connection)
| NotAConnection.

(** The list [connections] of [_execute], and what each parent end has
    still to deliver: the messages the worker sent and the coordinator did
    not read yet, the end of the stream after them. *)
Record receiving : Type := {
  connections : list Connection;
  pending : Connection -> list message
}.

(** [result.recv()] *)
Inductive received : Type :=
| EOFError
| Received (m : message) (st : receiving).

Definition recv (st : receiving) (c : Connection) : received :=
  match pending st c with
  | [] => EOFError
  | m :: later =>
      Received m
        {| connections := connections st;
           pending := fun c' => if Nat.eqb c' c then later else pending st c' |}
  end.

(** [list.remove]: the first occurrence goes, a missing element is a
    [ValueError] ([None] here). *)
Fixpoint list_remove (c : Connection) (l : list Connection)
  : option (list Connection) :=
  match l with
  | [] => None
  | c' :: l' =>
      if Nat.eqb c' c then Some l'
      else match list_remove c l' with
           | Some l'' => Some (c' :: l'')
           | None => None
           end
  end.

(** [connections.remove(result)] *)
Definition remove_connection (st : receiving) (c : Connection)
  : raising (Exception E) receiving :=
  match list_remove c (connections st) with
  | None => Raise ValueError
  | Some l => Ok {| connections := l; pending := pending st |}
  end.

(** The body of [for result in wait(connections)]. *)
Definition dispatch (processes : list Process) (st : receiving)
  (ready : ready_object) : list event * raising (Exception E) receiving :=
  match ready with
  | NotAConnection =>
      ([], Raise (NotImplementedError "We only support Connection()"))
  | AConnection c =>
      match recv st c with
      | EOFError => ([], remove_connection st c)
      | Received (msg_type, msg) st' =>
          if tag_eqb msg_type (Member result) then
            ([TaskFinished msg], Ok st')
          else if tag_eqb msg_type (Str "log") then
            match msg with
            | RecordObject record =>
                ([LogHandled (record_name record) record], Ok st')
            | _ => ([], Raise AttributeError)
            end
          else if tag_eqb msg_type (Member complete) then
            ([], remove_connection st' c)
          else if tag_eqb msg_type (Member exception) then
            (map Terminated processes,
             Raise (match msg with
                    | ExceptionObject e => e
                    | _ => TypeError
                    end))
          else ([], Ok st')
      end
  end.

Fixpoint for_ready (processes : list Process) (ready : list ready_object)
  (st : receiving) : list event * raising (Exception E) receiving :=
  match ready with
  | [] => ([], Ok st)
  | r :: rest =>
      let (evs, next) := dispatch processes st r in
      match next with
      | Raise e => (evs, Raise e)
      | Ok st' =>
          let (evs', final) := for_ready processes rest st' in
          (evs ++ evs', final)
      end
  end.

(** How a run ends: it returns, it raises, or it is still blocked in
    [wait] when the schedule of ready objects is used up. *)
Inductive run_end : Type :=
| Returned
| Raised (t : thrown)
| Waiting.

(** [while connections: for result in wait(connections): ...]; [schedule]
    lists what successive calls of [wait] return. *)
Fixpoint receive_loop (processes : list Process)
  (schedule : list (list ready_object)) (st : receiving)
  : list event * run_end :=
  match connections st with
  | [] => ([], Returned)
  | _ :: _ =>
      match schedule with
      | [] => ([], Waiting)
      | ready :: later =>
          let (evs, next) := for_ready processes ready st in
          match next with
          | Raise e => (evs, Raised (Error e))
          | Ok st' =>
              let (evs', final) := receive_loop processes later st' in
              (evs ++ evs', final)
          end
      end
  end.

(** [logging.getLogger("").level] in the coordinator. *)
Variable root_level : Z.

(** The single-worker branch: [for args in task_arguments]. *)
Fixpoint run_directly (task_arguments : list (object Args))
  : list event * run_end :=
  match task_arguments with
  | [] => ([], Returned)
  | args :: rest =>
      match snd (call args) with
      | RaisesException e => ([TaskCalled args], Raised (Error e))
      | RaisesBaseException b => ([TaskCalled args], Raised (BaseError b))
      | Returns v =>
          let (evs, final) := run_directly rest in
          (TaskCalled args :: TaskFinished (ResultObject v) :: evs, final)
      end
  end.

(** [for chunk in grouped_args]: a pipe and a process per chunk. *)
Fixpoint create_workers (p : nat) (grouped : list (list (object Args)))
  : list event :=
  match grouped with
  | [] => []
  | chunk :: rest =>
      PipeCreated p :: ProcessCreated p p root_level (worker_args chunk)
        :: create_workers (S p) rest
  end.

(** What worker [c] puts on its channel when it is left to run. *)
Definition channel (grouped : list (list (object Args))) (c : Connection)
  : list message :=
  sent (fst (process_loop c root_level (worker_args (nth c grouped [])))).

Definition _execute (use_threads : bool) (max_workers : Z)
  (task_arguments : list (object Args))
  (schedule : list (list ready_object)) : list event * run_end :=
  if use_threads && (max_workers =? 1)%Z then
    let (evs, final) := run_directly task_arguments in
    (ProgressEntered :: evs ++ [ProgressExited], final)
  else
    match grouped_args max_workers task_arguments with
    | Raise e => ([], Raised (Error e))
    | Ok [] => ([], Returned)
    | Ok grouped =>
        let processes := seq 0 (length grouped) in
        let spawn := create_workers 0 grouped ++ map Started processes in
        let st := {| connections := processes; pending := channel grouped |} in
        let (evs, final) := receive_loop processes schedule st in
        match final with
        | Returned =>
            (spawn ++ ProgressEntered :: evs
               ++ ProgressExited :: map Joined processes, Returned)
        | Raised t =>
            (spawn ++ ProgressEntered :: evs ++ [ProgressExited], Raised t)
        | Waiting => (spawn ++ ProgressEntered :: evs, Waiting)
        end
    end.

End Executor.

Arguments NoneObject {E Value}.
Arguments ResultObject {E Value} v.
Arguments ExceptionObject {E Value} e.
Arguments RecordObject {E Value} r.
Arguments Returns {E B Value} v.
Arguments RaisesException {E B Value} e.
Arguments RaisesBaseException {E B Value} b.
Arguments Error {E B} e.
Arguments BaseError {E B} b.
Arguments call {E B Args Value} task args.
Arguments SigbusHandlerInstalled {E Args Value}.
Arguments LogHandlersRemoved {E Args Value}.
Arguments LevelSet {E Args Value} loglevel.
Arguments HandlerAdded {E Args Value} conn.
Arguments InitCalled {E Args Value}.
Arguments TaskCalled {E Args Value} args.
Arguments Sent {E Args Value} conn m.
Arguments Closed {E Args Value} conn.
Arguments PipeCreated {E Args Value} conn.
Arguments ProcessCreated {E Args Value} p conn loglevel task_args.
Arguments Started {E Args Value} p.
Arguments ProgressEntered {E Args Value}.
Arguments ProgressExited {E Args Value}.
Arguments TaskFinished {E Args Value} msg.
Arguments LogHandled {E Args Value} logger record.
Arguments Terminated {E Args Value} p.
Arguments Joined {E Args Value} p.
Arguments enqueue {E Args Value} conn record.
Arguments Exhausted {B}.
Arguments Broke {B}.
Arguments Propagated {B} b.
Arguments task_loop {E B Args Value} task conn task_args.
Arguments Exited {E B}.
Arguments Died {E B} t.
Arguments run_tasks {E B Args Value} task conn task_args.
Arguments process_loop {E B Args Value} task user_init has_SIGBUS conn loglevel
  task_args.
Arguments sent {E Args Value} trace.
Arguments Build_receiving {E Value} connections pending.
Arguments connections {E Value} r.
Arguments pending {E Value} r c.
Arguments EOFError {E Value}.
Arguments Received {E Value} m st.
Arguments recv {E Value} st c.
Arguments remove_connection {E Value} st c.
Arguments dispatch {E Args Value} processes st ready.
Arguments for_ready {E Args Value} processes ready st.
Arguments Returned {E B}.
Arguments Raised {E B} t.
Arguments Waiting {E B}.
Arguments receive_loop {E B Args Value} processes schedule st.
Arguments run_directly {E B Args Value} task task_arguments.
Arguments create_workers {E Args Value} root_level p grouped.
Arguments channel {E B Args Value} task user_init has_SIGBUS root_level grouped c.
Arguments _execute {E B Args Value} task user_init has_SIGBUS root_level
  use_threads max_workers task_arguments schedule.

(** ** Groups built column by column

    The transposition seen from the groups: what adding one more chunk in
    front of the rows does to each group.  Used to reason about
    [task_groups]. *)

Section Columns.

Variable Args : Type.

(** A group with one more element in front, unless the element is [None]. *)
Definition push (o : object Args) (group : list (object Args)) :=
  if is_not_None o then o :: group else group.

(** The groups of a list of rows with one more row [chunk] in front:
    element [i] of the row goes in front of group [i]. *)
Fixpoint cons_column (chunk : list (object Args))
  (groups : list (list (object Args))) : list (list (object Args)) :=
  match chunk, groups with
  | [], _ => groups
  | o :: chunk', [] => push o [] :: cons_column chunk' []
  | o :: chunk', g :: groups' => push o g :: cons_column chunk' groups'
  end.

(** The groups made from the rows of a transposition. *)
Definition groups_of (rows : list (list (object Args)))
  : list (list (object Args)) :=
  map worker_args (zip_longest rows).

End Columns.

Arguments push {Args} o group.
Arguments cons_column {Args} chunk groups.
Arguments groups_of {Args} rows.

(** ** Reading traces *)

Section Traces.

Variables E Args Value : Type.

(** The argument tuples the task was called on. *)
Fixpoint calls (trace : list (event E Args Value)) : list (object Args) :=
  match trace with
  | [] => []
  | TaskCalled args :: rest => args :: calls rest
  | _ :: rest => calls rest
  end.

(** What the result callback was called with. *)
Fixpoint finished (trace : list (event E Args Value)) : list (payload E Value) :=
  match trace with
  | [] => []
  | TaskFinished msg :: rest => msg :: finished rest
  | _ :: rest => finished rest
  end.

Definition is_InitCalled (ev : event E Args Value) : bool :=
  match ev with InitCalled => true | _ => false end.

Definition is_TaskCalled (ev : event E Args Value) : bool :=
  match ev with TaskCalled _ => true | _ => false end.

Definition is_Joined (ev : event E Args Value) : bool :=
  match ev with Joined _ => true | _ => false end.

(** Pipes and processes. *)
Definition uses_processes (ev : event E Args Value) : bool :=
  match ev with
  | PipeCreated _ | ProcessCreated _ _ _ _ | Started _
  | Terminated _ | Joined _ => true
  | _ => false
  end.

Definition has_tag (t : tag) (m : message E Value) : bool := tag_eqb (fst m) t.

(** The messages that are not forwarded log records. *)
Definition protocol (msgs : list (message E Value)) : list (message E Value) :=
  filter (fun m => negb (has_tag (Str "log") m)) msgs.

(** The records of the forwarded log messages. *)
Fixpoint log_records (msgs : list (message E Value)) : list LogRecord :=
  match msgs with
  | [] => []
  | (t, RecordObject r) :: rest =>
      if tag_eqb t (Str "log") then r :: log_records rest
      else log_records rest
  | _ :: rest => log_records rest
  end.

End Traces.

Arguments calls {E Args Value} trace.
Arguments finished {E Args Value} trace.
Arguments is_InitCalled {E Args Value} ev.
Arguments is_TaskCalled {E Args Value} ev.
Arguments is_Joined {E Args Value} ev.
Arguments uses_processes {E Args Value} ev.
Arguments has_tag {E Value} t m.
Arguments protocol {E Value} msgs.
Arguments log_records {E Value} msgs.

(** ** A small instance, to run the model on *)

Definition warning : LogRecord :=
  {| record_name := "x.y"; record_levelno := 30; record_msg := "page skipped" |}.

(** Doubles its argument; warns and fails on 3; exits the process on 7. *)
Definition demo_task (n : nat) : list LogRecord * outcome string unit nat :=
  if Nat.eqb n 3 then ([warning], RaisesException (TaskError "boom"%string))
  else if Nat.eqb n 7 then ([], RaisesBaseException tt)
  else ([], Returns (2 * n)).

Definition demo_init : list LogRecord * option (thrown string unit) := ([], None).

Definition demo_execute := _execute demo_task demo_init true 20%Z.

(** One worker fails on its second task while the other is half way. *)
Definition demo_schedule : list (list ready_object) :=
  [[AConnection 0]; [AConnection 1; AConnection 0]; [AConnection 0]].

(** A channel that carries one forwarded log record. *)
Definition log_channel : receiving string nat :=
  {| connections := [0];
     pending := fun _ => [(Str "log", RecordObject warning)] |}.

(** A channel that carries a message with a tag outside the protocol. *)
Definition odd_channel : receiving string nat :=
  {| connections := [0];
     pending := fun _ => [(Str "bogus", NoneObject); (Member complete, NoneObject)] |}.

(** ** Reading channels and runs *)

Section Channels.

Variables E B Args Value : Type.

(** What a call raises, if it raises. *)
Definition escapes (out : outcome E B Value) : option (thrown E B) :=
  match out with
  | Returns _ => None
  | RaisesException e => Some (Error e)
  | RaisesBaseException b => Some (BaseError b)
  end.

(** The payloads of the messages tagged [result]. *)
Fixpoint results (msgs : list (message E Value)) : list (payload E Value) :=
  match msgs with
  | [] => []
  | (t, p) :: rest =>
      if tag_eqb t (Member result) then p :: results rest else results rest
  end.

(** The results the open connections have still to deliver. *)
Definition remaining (st : receiving E Value) : list (payload E Value) :=
  flat_map (fun c => results (pending st c)) (connections st).

(** No result follows a [complete] on the channel. *)
Fixpoint ends_at_complete (msgs : list (message E Value)) : Prop :=
  match msgs with
  | [] => True
  | (t, _) :: rest =>
      (tag_eqb t (Member complete) = true -> results rest = [])
      /\ ends_at_complete rest
  end.

(** The connections are distinct, a connection that left the list has no
    result to deliver, and on no channel a result follows [complete]. *)
Definition orderly (st : receiving E Value) : Prop :=
  NoDup (connections st)
  /\ (forall c, ~ In c (connections st) -> results (pending st c) = [])
  /\ (forall c, ends_at_complete (pending st c)).

(** An event of the coordinator that answers a message: the message it
    answers is on some channel of [st]. *)
Definition answers (st : receiving E Value) (ev : event E Args Value) : Prop :=
  match ev with
  | TaskFinished p => exists c, In (Member result, p) (pending st c)
  | LogHandled logger r =>
      logger = record_name r
      /\ exists c, In (Str "log", RecordObject r) (pending st c)
  | Terminated _ => exists c p, In (Member exception, p) (pending st c)
  | _ => True
  end.

(** A message that a call of the task on a tuple of [group] accounts for:
    its result, the error it raised, or a record it logged. *)
Definition task_message (task : Args -> list LogRecord * outcome E B Value)
  (group : list (object Args)) (m : message E Value) : Prop :=
  exists a,
    In a group
    /\ ((exists v, snd (call task a) = Returns v
                   /\ m = (Member result, ResultObject v))
        \/ (exists e, snd (call task a) = RaisesException e
                      /\ m = (Member exception, ExceptionObject e))
        \/ (exists r, In r (fst (call task a))
                      /\ m = (Str "log", RecordObject r))).

(** A result, or a forwarded log record: a message the coordinator answers
    and goes on. *)
Definition plain (m : message E Value) : Prop :=
  (exists p, m = (Member result, p))
  \/ (exists r, m = (Str "log", RecordObject r)).

(** A schedule that empties the channels one after the other: each
    connection in turn is the only one ready, once per message it holds. *)
Definition drain (channels : Connection -> list (message E Value))
  (cs : list Connection) : list (list ready_object) :=
  flat_map (fun c => repeat [AConnection c] (length (channels c))) cs.

(** Creation and start of the workers. *)
Definition spawns (ev : event E Args Value) : bool :=
  match ev with
  | PipeCreated _ | ProcessCreated _ _ _ _ | Started _ => true
  | _ => false
  end.

Definition is_TaskFinished (ev : event E Args Value) : bool :=
  match ev with TaskFinished _ => true | _ => false end.

Definition is_Terminated (ev : event E Args Value) : bool :=
  match ev with Terminated _ => true | _ => false end.

End Channels.

Arguments escapes {E B Value} out.
Arguments results {E Value} msgs.
Arguments remaining {E Value} st.
Arguments ends_at_complete {E Value} msgs.
Arguments orderly {E Value} st.
Arguments answers {E Args Value} st ev.
Arguments task_message {E B Args Value} task group m.
Arguments plain {E Value} m.
Arguments drain {E Value} channels cs.
Arguments spawns {E Args Value} ev.
Arguments is_TaskFinished {E Args Value} ev.
Arguments is_Terminated {E Args Value} ev.

(** An initializer that fails without a word. *)
Definition failing_init : list LogRecord * option (thrown string unit) :=
  ([], Some (Error (TaskError "no tesseract"%string))).

(** Both connections are ready at each of three calls of [wait]. *)
Definition poll_both : list (list ready_object) :=
  repeat [AConnection 0; AConnection 1] 3.


(** * Properties *)

(** ** The partition *)

Example split_every_4_range_10 :
  split_every (E:=unit) 4 (seq 0 10) = Ok [[0; 1; 2; 3]; [4; 5; 6; 7]; [8; 9]].
Proof. reflexivity. Qed.

Example split_every_negative :
  split_every (E:=unit) (-1) (seq 0 10) = Raise ValueError.
Proof. reflexivity. Qed.

Example task_groups_10_3 :
  task_groups (E:=unit) 3 (map PyArgs (seq 0 10))
  = Ok (map (map PyArgs) [[0; 3; 6; 9]; [1; 4; 7]; [2; 5; 8]]).
Proof. reflexivity. Qed.

Example task_groups_more_workers_than_tasks :
  task_groups (E:=unit) 5 (map PyArgs [0; 1]) = Ok [[PyArgs 0]; [PyArgs 1]].
Proof. reflexivity. Qed.

Section PartitionFacts.
Context {Args : Type}.
Implicit Types (rows groups : list (list (object Args))).
Implicit Types (l chunk g : list (object Args)) (o : object Args).

Lemma exhausted_longest rows :
  forallb exhausted rows = true <-> longest rows = 0.
Proof.
  induction rows as [|row rows IH]; simpl; [tauto|].
  rewrite andb_true_iff, IH. destruct row; simpl; [tauto|].
  unfold exhausted; simpl. split; [intros [H _]; discriminate|].
  intros H. destruct (longest rows); discriminate.
Qed.

Lemma longest_cons chunk rows :
  longest (chunk :: rows) = Nat.max (length chunk) (longest rows).
Proof. reflexivity. Qed.

Lemma longest_tl rows : longest (map (@tl _) rows) = pred (longest rows).
Proof.
  induction rows as [|row rows IH]; [reflexivity|].
  cbn [map]. rewrite !longest_cons, IH.
  destruct row; cbn [tl length]; lia.
Qed.

(** The fuel [zip_longest] gives itself is enough: it satisfies the
    equation of the loop. *)
Lemma zip_longest_unfold rows :
  zip_longest rows =
    if forallb exhausted rows then []
    else map next_or_None rows :: zip_longest (map (@tl _) rows).
Proof.
  unfold zip_longest.
  destruct (longest rows) as [|m] eqn:Hm.
  - apply exhausted_longest in Hm. rewrite Hm. reflexivity.
  - simpl. destruct (forallb exhausted rows) eqn:Hex; [reflexivity|].
    rewrite longest_tl, Hm. reflexivity.
Qed.

Lemma zip_longest_fuel_nil_row fuel rows :
  zip_longest_fuel fuel ([] :: rows)
  = map (cons PyNone) (zip_longest_fuel fuel rows).
Proof.
  revert rows; induction fuel as [|fuel IH]; intros rows; simpl; [reflexivity|].
  destruct (forallb exhausted rows); simpl; [reflexivity|].
  rewrite IH. reflexivity.
Qed.

Lemma groups_of_exhausted rows :
  forallb exhausted rows = true ->
  worker_args (map next_or_None rows) = []
  /\ forallb exhausted (map (@tl _) rows) = true.
Proof.
  induction rows as [|row rows IH]; simpl; [auto|].
  rewrite andb_true_iff. intros [Hrow Hrows].
  destruct row; [|discriminate]. simpl.
  destruct (IH Hrows) as [-> ->]. auto.
Qed.

Lemma groups_of_cons chunk rows :
  groups_of (chunk :: rows) = cons_column chunk (groups_of rows).
Proof.
  revert rows. induction chunk as [|o chunk IH]; intros rows.
  - unfold groups_of, zip_longest. simpl longest.
    rewrite zip_longest_fuel_nil_row, map_map. reflexivity.
  - unfold groups_of at 1. rewrite zip_longest_unfold.
    cbn [forallb]. change (exhausted (o :: chunk)) with false.
    cbn [andb map next_or_None tl].
    change (map worker_args (zip_longest (chunk :: map (@tl _) rows)))
      with (groups_of (chunk :: map (@tl _) rows)).
    rewrite IH. unfold groups_of at 2. rewrite (zip_longest_unfold rows).
    destruct (forallb exhausted rows) eqn:Hex.
    + destruct (groups_of_exhausted rows Hex) as [Hnone Htl].
      unfold groups_of. rewrite zip_longest_unfold, Htl.
      cbn [map cons_column]. unfold worker_args in *. cbn [filter].
      rewrite Hnone. unfold push. destruct (is_not_None o); reflexivity.
    + cbn [map cons_column]. unfold worker_args, push. cbn [filter].
      destruct (is_not_None o); reflexivity.
Qed.

Lemma groups_of_fold (chunks : list (list (object Args))) :
  groups_of chunks = fold_right cons_column [] chunks.
Proof.
  induction chunks as [|c cs IH]; [reflexivity|].
  rewrite groups_of_cons, IH. reflexivity.
Qed.

Lemma cons_column_length chunk groups :
  length (cons_column chunk groups) = Nat.max (length chunk) (length groups).
Proof.
  revert groups. induction chunk as [|o chunk IH]; intros [|g groups];
    cbn [cons_column length]; rewrite ?IH; cbn [length]; lia.
Qed.

Lemma cons_column_concat chunk groups :
  Permutation (concat (cons_column chunk groups))
    (filter is_not_None chunk ++ concat groups).
Proof.
  revert groups. induction chunk as [|o chunk IH]; intros groups.
  - reflexivity.
  - destruct groups as [|g groups]; cbn [cons_column concat filter];
      unfold push; destruct (is_not_None o); cbn [app].
    + constructor. apply IH.
    + apply IH.
    + constructor. rewrite IH, !app_assoc.
      apply Permutation_app_tail, Permutation_app_comm.
    + rewrite IH, !app_assoc.
      apply Permutation_app_tail, Permutation_app_comm.
Qed.

Lemma fold_cons_column_concat (chunks : list (list (object Args))) :
  Permutation (concat (fold_right cons_column [] chunks))
    (filter is_not_None (concat chunks)).
Proof.
  induction chunks as [|c cs IH]; [reflexivity|].
  cbn [fold_right concat]. rewrite cons_column_concat, filter_app, IH.
  reflexivity.
Qed.

Lemma nth_cons_column chunk groups i :
  nth i (cons_column chunk groups) [] =
    match nth_error chunk i with
    | Some o => push o (nth i groups [])
    | None => nth i groups []
    end.
Proof.
  revert groups i. induction chunk as [|o chunk IH]; intros groups i.
  - destruct i; reflexivity.
  - destruct groups as [|g groups], i as [|i]; cbn [cons_column nth nth_error];
      try reflexivity.
    + rewrite IH. destruct i; reflexivity.
    + apply IH.
Qed.

(** *** The chunks of [split_every] *)

Lemma take_chunks_step fuel n l :
  0 < n -> l <> [] ->
  take_chunks (S fuel) n l = firstn n l :: take_chunks fuel n (skipn n l).
Proof.
  intros Hn Hl. cbn [take_chunks islice].
  destruct n as [|n]; [lia|]. destruct l as [|o l]; [congruence|].
  reflexivity.
Qed.

Lemma take_chunks_nil fuel n : take_chunks fuel n (@nil (object Args)) = [].
Proof. destruct fuel; [reflexivity|]. cbn. rewrite firstn_nil. reflexivity. Qed.

(** Drawing chunks loses nothing and repeats nothing. *)
Lemma take_chunks_concat fuel n l :
  0 < n -> length l < fuel -> concat (take_chunks fuel n l) = l.
Proof.
  intros Hn. revert l. induction fuel as [|fuel IH]; intros l Hl; [lia|].
  destruct l as [|o l]; [now rewrite take_chunks_nil|].
  rewrite take_chunks_step by (auto; discriminate).
  cbn [concat]. rewrite IH, firstn_skipn; [reflexivity|].
  rewrite length_skipn. cbn [length] in *. lia.
Qed.

Lemma round_robin_length fuel n l :
  0 < n -> length l < fuel ->
  length (fold_right cons_column [] (take_chunks fuel n l))
  = Nat.min n (length l).
Proof.
  intros Hn. revert l. induction fuel as [|fuel IH]; intros l Hl; [lia|].
  destruct l as [|o l]; [rewrite take_chunks_nil; cbn; lia|].
  rewrite take_chunks_step by (auto; discriminate).
  cbn [fold_right]. rewrite cons_column_length, IH, length_firstn, length_skipn.
  - lia.
  - rewrite length_skipn. cbn [length] in *. lia.
Qed.

Lemma not_None_in l o : ~ In PyNone l -> In o l -> is_not_None o = true.
Proof. intros Hn Hin. destruct o; [contradiction | reflexivity]. Qed.

Lemma not_None_filter l : ~ In PyNone l -> filter is_not_None l = l.
Proof.
  induction l as [|o l IH]; intros Hn; [reflexivity|].
  cbn [filter]. rewrite (not_None_in (o :: l) o Hn (or_introl eq_refl)).
  rewrite IH; [reflexivity|]. intros H. apply Hn. now right.
Qed.

(** Position [k] of group [i] is position [i + k * n] of the input. *)
Lemma round_robin_index fuel n l i k :
  0 < n -> i < n -> length l < fuel -> ~ In PyNone l ->
  nth_error (nth i (fold_right cons_column [] (take_chunks fuel n l)) []) k
  = nth_error l (i + k * n).
Proof.
  intros Hn Hi. revert l k. induction fuel as [|fuel IH]; intros l k Hl Hnone; [lia|].
  destruct l as [|o l].
  { rewrite take_chunks_nil. cbn [fold_right].
    replace (nth i [] []) with (@nil (object Args)) by (destruct i; reflexivity).
    now rewrite !nth_error_nil. }
  rewrite take_chunks_step by (auto; discriminate).
  cbn [fold_right]. rewrite nth_cons_column.
  set (rest := skipn n (o :: l)).
  assert (Hrest : length rest < fuel).
  { unfold rest. rewrite length_skipn. cbn [length] in *. lia. }
  assert (Hnone' : ~ In PyNone rest).
  { intros H. apply Hnone. unfold rest in H.
    rewrite <- (firstn_skipn n (o :: l)). apply in_or_app. now right. }
  rewrite nth_error_firstn. destruct (Nat.ltb_spec i n) as [_|]; [|lia].
  destruct (nth_error (o :: l) i) as [y|] eqn:Hy.
  - unfold push. rewrite (not_None_in (o :: l) y Hnone (nth_error_In _ _ Hy)).
    destruct k as [|k]; cbn [nth_error].
    + rewrite Nat.add_0_r. now rewrite Hy.
    + rewrite IH by assumption. unfold rest. rewrite nth_error_skipn.
      f_equal. lia.
  - rewrite IH by assumption. unfold rest. rewrite nth_error_skipn.
    apply nth_error_None in Hy.
    transitivity (@None (object Args)); [|symmetry];
      apply nth_error_None; lia.
Qed.

Lemma task_groups_round_robin (E : Type) (W : Z) l :
  (0 <= W)%Z ->
  task_groups (E:=E) W l
  = Ok (fold_right cons_column []
          (take_chunks (S (length l)) (Z.to_nat W) l)).
Proof.
  intros HW. unfold task_groups, grouped_args, split_every.
  destruct (Z.ltb_spec W 0) as [|_]; [lia|].
  f_equal. apply groups_of_fold.
Qed.

Lemma filter_keeps_all (f : object Args -> bool) l :
  length (filter f l) = length l -> forall o, In o l -> f o = true.
Proof.
  induction l as [|x l IH]; intros Hlen o Hin; [destruct Hin|].
  cbn [filter] in Hlen. pose proof (filter_length_le f l) as Hle.
  destruct (f x) eqn:Hx; cbn [length] in Hlen; [|lia].
  destruct Hin as [<-|Hin]; [assumption|]. apply IH; [lia | assumption].
Qed.

End PartitionFacts.

(** C1, amended: for every task-argument sequence without a [None] element and
    every worker count [W >= 1], the groups built by [split_every], the
    [zip_longest] transposition and the removal of the [None] padding are
    [min W T] in number; position [k] of group [i] is the element at original
    index [i + k * W], so group [i] holds exactly the elements at indices
    [i], [i + W], [i + 2 W], ...; and the groups together are the original
    sequence, nothing repeated and nothing left out. *)
Theorem round_robin_partition (E Args : Type) (W : Z) (l : list (object Args)) :
  (1 <= W)%Z -> ~ In PyNone l ->
  exists groups,
    task_groups (E:=E) W l = Ok groups
    /\ length groups = Nat.min (Z.to_nat W) (length l)
    /\ (forall i k, i < Z.to_nat W ->
          nth_error (nth i groups []) k = nth_error l (i + k * Z.to_nat W))
    /\ Permutation (concat groups) l.
Proof.
  intros HW Hnone. eexists. split; [apply task_groups_round_robin; lia|].
  assert (Hn : 0 < Z.to_nat W) by lia.
  split; [|split].
  - apply round_robin_length; lia.
  - intros i k Hi. apply round_robin_index; auto.
  - rewrite fold_cons_column_concat, take_chunks_concat by lia.
    now rewrite not_None_filter.
Qed.

Lemma round_robin_partition_witness :
  exists groups,
    task_groups (E:=unit) 3 (map PyArgs (seq 0 10)) = Ok groups
    /\ length groups = 3
    /\ (forall i k, i < 3 ->
          nth_error (nth i groups []) k
          = nth_error (map PyArgs (seq 0 10)) (i + k * 3))
    /\ Permutation (concat groups) (map PyArgs (seq 0 10)).
Proof.
  apply (round_robin_partition unit nat 3 (map PyArgs (seq 0 10))).
  - lia.
  - cbn. intros H. repeat (destruct H as [H|H]; [discriminate|]). exact H.
Defined.

(** C1 as stated fails on a sequence with a [None] element: with two workers,
    [[args0, None, args2]] gives the groups [[args0, args2]] and [[]]; the
    element at index 1 is in no group. *)
Lemma partition_drops_None :
  task_groups (E:=unit) 2 [PyArgs 0; PyNone; PyArgs 2]
  = Ok [[PyArgs 0; PyArgs 2]; []]
  /\ nth_error [PyArgs 0; PyNone; PyArgs 2] 1 = Some PyNone
  /\ nth_error (nth 1 [[PyArgs 0; PyArgs 2]; []] []) 0 = None
  /\ ~ Permutation (concat [[PyArgs 0; PyArgs 2]; []])
         [PyArgs 0; PyNone; PyArgs 2].
Proof.
  repeat split. cbn. intros H. apply Permutation_length in H. discriminate.
Qed.

(** C10: for every worker count [W >= 1] and every task-argument sequence, no
    task group contains [None], so an element that is [None] is left out of
    every group without any error; the groups together are the elements that
    are not [None], and they are the whole input exactly when no element of
    the input is [None]. *)
Theorem None_arguments_are_omitted (E Args : Type) (W : Z)
  (l : list (object Args)) :
  (1 <= W)%Z ->
  exists groups,
    task_groups (E:=E) W l = Ok groups
    /\ (forall g, In g groups -> ~ In PyNone g)
    /\ Permutation (concat groups) (filter is_not_None l)
    /\ (Permutation (concat groups) l <-> ~ In PyNone l).
Proof.
  intros HW. eexists. split; [apply task_groups_round_robin; lia|].
  assert (Hperm : Permutation
            (concat (fold_right cons_column []
               (take_chunks (S (length l)) (Z.to_nat W) l)))
            (filter is_not_None l)).
  { rewrite fold_cons_column_concat, take_chunks_concat by lia. reflexivity. }
  split; [|split; [exact Hperm|split]].
  - rewrite <- groups_of_fold. unfold groups_of, worker_args.
    intros g Hg HNone. apply in_map_iff in Hg as [chunk [<- _]].
    apply filter_In in HNone as [_ H]. discriminate.
  - intros Hl HNone.
    assert (Hlen : length (filter is_not_None l) = length l).
    { apply Permutation_length. now rewrite <- Hperm. }
    pose proof (filter_keeps_all _ _ Hlen _ HNone). discriminate.
  - intros Hnone. rewrite Hperm. now rewrite not_None_filter.
Qed.

Lemma None_arguments_are_omitted_witness :
  exists groups,
    task_groups (E:=unit) 2 [PyArgs 0; PyNone; PyArgs 2] = Ok groups
    /\ (forall g, In g groups -> ~ In PyNone g)
    /\ Permutation (concat groups) (filter is_not_None [PyArgs 0; PyNone; PyArgs 2])
    /\ (Permutation (concat groups) [PyArgs 0; PyNone; PyArgs 2]
        <-> ~ In PyNone [PyArgs 0; PyNone; PyArgs 2]).
Proof.
  apply (None_arguments_are_omitted unit nat 2 [PyArgs 0; PyNone; PyArgs 2]). lia.
Defined.

(** ** The worker *)

Section WorkerFacts.
Context {E B Args Value : Type}.
Variable task : Args -> list LogRecord * outcome E B Value.

Implicit Types (trace evs : list (event E Args Value)) (conn : Connection).
Implicit Types (ms : list (message E Value)).

Lemma sent_app trace evs : sent (trace ++ evs) = sent trace ++ sent evs.
Proof.
  induction trace as [|ev trace IH]; [reflexivity|].
  destruct ev; cbn [sent app]; rewrite ?IH; reflexivity.
Qed.

Lemma calls_app trace evs : calls (trace ++ evs) = calls trace ++ calls evs.
Proof.
  induction trace as [|ev trace IH]; [reflexivity|].
  destruct ev; cbn [calls app]; rewrite ?IH; reflexivity.
Qed.

Lemma protocol_app ms ms' : protocol (ms ++ ms') = protocol ms ++ protocol ms'.
Proof. apply filter_app. Qed.

Lemma log_records_app ms ms' :
  log_records (ms ++ ms') = log_records ms ++ log_records ms'.
Proof.
  induction ms as [|[t p] ms IH]; [reflexivity|].
  cbn [app log_records]. rewrite IH.
  destruct p; try reflexivity. destruct (tag_eqb t (Str "log")); reflexivity.
Qed.

Lemma sent_enqueue conn records :
  sent (map (enqueue (E:=E) (Args:=Args) (Value:=Value) conn) records)
  = map (fun r => (Str "log", RecordObject r)) records.
Proof. induction records as [|r rs IH]; cbn; [|rewrite IH]; reflexivity. Qed.

Lemma protocol_logs records :
  protocol (map (fun r => (Str "log", @RecordObject E Value r)) records) = [].
Proof. induction records as [|r rs IH]; [reflexivity | exact IH]. Qed.

Lemma log_records_logs records :
  log_records (map (fun r => (Str "log", @RecordObject E Value r)) records)
  = records.
Proof. induction records as [|r rs IH]; cbn; [|rewrite IH]; reflexivity. Qed.

Lemma calls_enqueue conn records :
  calls (map (enqueue (E:=E) (Args:=Args) (Value:=Value) conn) records) = [].
Proof. induction records as [|r rs IH]; [reflexivity | exact IH]. Qed.

(** One turn of the loop on a task that returns. *)
Lemma task_loop_returns conn args rest records v :
  call task args = (records, Returns v) ->
  task_loop task conn (args :: rest)
  = (TaskCalled args :: map (enqueue conn) records
       ++ Sent conn (Member result, ResultObject v)
       :: fst (task_loop task conn rest),
     snd (task_loop task conn rest)).
Proof.
  intros Hcall. cbn [task_loop]. rewrite Hcall.
  destruct (task_loop task conn rest). reflexivity.
Qed.

Lemma task_loop_raises conn args rest records e :
  call task args = (records, RaisesException e) ->
  task_loop task conn (args :: rest)
  = (TaskCalled args :: map (enqueue conn) records
       ++ [Sent conn (Member exception, ExceptionObject e)], Broke).
Proof. intros Hcall. cbn [task_loop]. rewrite Hcall. reflexivity. Qed.

Lemma task_loop_propagates conn args rest records b :
  call task args = (records, RaisesBaseException b) ->
  task_loop task conn (args :: rest)
  = (TaskCalled args :: map (enqueue conn) records, Propagated b).
Proof. intros Hcall. cbn [task_loop]. rewrite Hcall. reflexivity. Qed.

(** The loop sends no [complete]. *)
Lemma task_loop_no_complete conn task_args :
  filter (has_tag (Member complete)) (sent (fst (task_loop task conn task_args)))
  = [].
Proof.
  induction task_args as [|args rest IH]; [reflexivity|].
  destruct (call task args) as [records [v|e|b]] eqn:Hcall.
  - rewrite (task_loop_returns conn args rest records v Hcall). cbn [fst sent].
    rewrite sent_app, filter_app, sent_enqueue. cbn [sent filter has_tag fst tag_eqb].
    rewrite IH, app_nil_r. clear. induction records; [reflexivity | assumption].
  - rewrite (task_loop_raises conn args rest records e Hcall). cbn [fst sent].
    rewrite sent_app, filter_app, sent_enqueue, app_nil_r.
    clear. induction records; [reflexivity | assumption].
  - rewrite (task_loop_propagates conn args rest records b Hcall). cbn [fst sent].
    rewrite sent_enqueue. clear. induction records; [reflexivity | assumption].
Qed.

Lemma run_tasks_returns conn args rest records v :
  call task args = (records, Returns v) ->
  run_tasks task conn (args :: rest)
  = (TaskCalled args :: map (enqueue conn) records
       ++ Sent conn (Member result, ResultObject v)
       :: fst (run_tasks task conn rest),
     snd (run_tasks task conn rest)).
Proof.
  intros Hcall. unfold run_tasks.
  rewrite (task_loop_returns conn args rest records v Hcall).
  destruct (task_loop task conn rest) as [evs how].
  destruct how; cbn [fst snd app]; try reflexivity;
    now rewrite <- app_assoc.
Qed.

Lemma task_loop_no_init conn task_args :
  Forall (fun ev => is_InitCalled ev = false) (fst (task_loop task conn task_args)).
Proof.
  assert (Hlogs : forall records,
             Forall (fun ev : event E Args Value => is_InitCalled ev = false)
               (map (enqueue conn) records)).
  { intros records. apply Forall_forall. intros ev Hev.
    apply in_map_iff in Hev as [r [<- _]]. reflexivity. }
  induction task_args as [|args rest IH]; [constructor|].
  destruct (call task args) as [records [v|e|b]] eqn:Hcall.
  - rewrite (task_loop_returns conn args rest records v Hcall). cbn [fst].
    constructor; [reflexivity|]. apply Forall_app. split; [apply Hlogs|].
    constructor; [reflexivity | exact IH].
  - rewrite (task_loop_raises conn args rest records e Hcall). cbn [fst].
    constructor; [reflexivity|]. apply Forall_app. split; [apply Hlogs|].
    constructor; [reflexivity | constructor].
  - rewrite (task_loop_propagates conn args rest records b Hcall). cbn [fst].
    constructor; [reflexivity | apply Hlogs].
Qed.

Lemma task_loop_broke conn task_args :
  snd (task_loop task conn task_args) = Broke ->
  exists evs e,
    fst (task_loop task conn task_args)
    = evs ++ [Sent conn (Member exception, ExceptionObject e)].
Proof.
  induction task_args as [|args rest IH]; [discriminate|].
  destruct (call task args) as [records [v|e|b]] eqn:Hcall.
  - rewrite (task_loop_returns conn args rest records v Hcall).
    cbn [fst snd]. intros Hrest. destruct (IH Hrest) as [evs [e ->]].
    exists (TaskCalled args :: map (enqueue conn) records
              ++ Sent conn (Member result, ResultObject v) :: evs), e.
    cbn [app]. now rewrite <- app_assoc.
  - rewrite (task_loop_raises conn args rest records e Hcall).
    intros _. exists (TaskCalled args :: map (enqueue conn) records), e.
    reflexivity.
  - rewrite (task_loop_propagates conn args rest records b Hcall).
    discriminate.
Qed.

Lemma task_loop_log_records conn task_args :
  log_records (sent (fst (task_loop task conn task_args)))
  = flat_map (fun a => fst (call task a))
      (calls (fst (task_loop task conn task_args))).
Proof.
  induction task_args as [|args rest IH]; [reflexivity|].
  destruct (call task args) as [records [v|e|b]] eqn:Hcall.
  - rewrite (task_loop_returns conn args rest records v Hcall).
    cbn [fst sent calls flat_map]. rewrite Hcall. cbn [fst].
    rewrite sent_app, calls_app, sent_enqueue, calls_enqueue, log_records_app.
    rewrite log_records_logs. cbn [app sent calls log_records].
    now rewrite IH.
  - rewrite (task_loop_raises conn args rest records e Hcall).
    cbn [fst sent calls flat_map]. rewrite Hcall. cbn [fst].
    rewrite sent_app, calls_app, sent_enqueue, calls_enqueue, log_records_app.
    rewrite log_records_logs. reflexivity.
  - rewrite (task_loop_propagates conn args rest records b Hcall).
    cbn [fst sent calls flat_map]. rewrite Hcall. cbn [fst].
    rewrite sent_enqueue, calls_enqueue, log_records_logs.
    now rewrite app_nil_r.
Qed.

End WorkerFacts.

(** C3: in a worker whose task returns on the argument tuples [before]
    (positions [0 .. k-1]) and raises the error [e] on [args] (position [k]),
    the task is called on positions [0 .. k] only, and the protocol messages
    of the worker are the result messages of positions [0 .. k-1], in order,
    then one exception message carrying [e], then [complete]: no result is
    sent for a position after [k]. *)
Theorem task_fault_ends_group {E B Args Value : Type}
  (task : Args -> list LogRecord * outcome E B Value) (conn : Connection)
  (before : list (object Args)) (args : object Args)
  (after : list (object Args)) (values : list Value)
  (records : list LogRecord) (e : Exception E) :
  Forall2 (fun a v => snd (call task a) = Returns v) before values ->
  call task args = (records, RaisesException e) ->
  let worker := run_tasks task conn (before ++ args :: after) in
  calls (fst worker) = before ++ [args]
  /\ protocol (sent (fst worker))
     = map (fun v => (Member result, ResultObject v)) values
         ++ [(Member exception, ExceptionObject e); (Member complete, NoneObject)].
Proof.
  intros Hbefore Hargs. cbv zeta.
  induction Hbefore as [|a v before values Ha _ IH].
  - cbn [app map]. unfold run_tasks.
    rewrite (task_loop_raises task conn args after records e Hargs).
    cbn [fst]. split.
    + rewrite calls_app. cbn [calls]. rewrite calls_app, calls_enqueue.
      reflexivity.
    + rewrite sent_app. cbn [sent]. rewrite sent_app, sent_enqueue.
      rewrite !protocol_app, protocol_logs. reflexivity.
  - destruct (call task a) as [recs out] eqn:Hcall. cbn [snd] in Ha. subst out.
    cbn [app]. rewrite (run_tasks_returns task conn a _ recs v Hcall).
    cbn [fst]. destruct IH as [IHcalls IHsent]. split.
    + cbn [calls]. rewrite calls_app, calls_enqueue. cbn [app calls].
      now rewrite IHcalls.
    + cbn [sent]. rewrite sent_app, sent_enqueue, protocol_app, protocol_logs.
      cbn [app sent map]. unfold protocol at 1. cbn [filter has_tag fst tag_eqb negb].
      fold (protocol (sent (fst (run_tasks task conn (before ++ args :: after))))).
      now rewrite IHsent.
Qed.

Lemma task_fault_ends_group_witness :
  let worker := run_tasks demo_task 0 (map PyArgs [1; 2; 3; 4; 5]) in
  calls (fst worker) = map PyArgs [1; 2] ++ [PyArgs 3]
  /\ protocol (sent (fst worker))
     = map (fun v => (Member result, ResultObject v)) [2; 4]
         ++ [(Member exception, ExceptionObject (TaskError "boom"%string));
             (Member complete, NoneObject)].
Proof.
  apply (task_fault_ends_group demo_task 0 (map PyArgs [1; 2]) (PyArgs 3)
           (map PyArgs [4; 5]) [2; 4] [warning] (TaskError "boom"%string)).
  - repeat constructor.
  - reflexivity.
Defined.

(** C5: for every task group, when the initializer returned and the task loop
    ended by running out of tasks or by the [break] after a task failure, the
    worker returns, and its trace ends with one [complete] message followed by
    the closing of the channel; no [complete] is sent before that one; and
    after a failure the last two messages are the exception message and
    [complete]. *)
Theorem complete_sent_once {E B Args Value : Type}
  (task : Args -> list LogRecord * outcome E B Value)
  (user_init : list LogRecord * option (thrown E B)) (has_SIGBUS : bool)
  (conn : Connection) (loglevel : Z) (task_args : list (object Args)) :
  snd user_init = None ->
  snd (task_loop task conn task_args) = Exhausted
  \/ snd (task_loop task conn task_args) = Broke ->
  let worker := process_loop task user_init has_SIGBUS conn loglevel task_args in
  snd worker = Exited
  /\ (exists before,
        fst worker
        = before ++ [Sent conn (Member complete, NoneObject); Closed conn]
        /\ filter (has_tag (Member complete)) (sent before) = [])
  /\ (snd (task_loop task conn task_args) = Broke ->
      exists earlier e,
        sent (fst worker)
        = earlier ++ [(Member exception, ExceptionObject e);
                      (Member complete, NoneObject)]).
Proof.
  intros Hinit Hloop. cbv zeta. unfold process_loop, run_tasks.
  destruct user_init as [records raised]. cbn [snd] in Hinit. subst raised.
  pose proof (task_loop_no_complete task conn task_args) as Hnone.
  pose proof (task_loop_broke task conn task_args) as Hbroke.
  destruct (task_loop task conn task_args) as [evs how]. cbn [fst snd] in *.
  set (setup := (if has_SIGBUS then [SigbusHandlerInstalled] else [])
                  ++ [LogHandlersRemoved; LevelSet loglevel; HandlerAdded conn]).
  assert (Hsetup : sent setup = []) by (unfold setup; destruct has_SIGBUS; reflexivity).
  assert (Hshape :
    fst (setup ++ (InitCalled :: map (enqueue conn) records)
           ++ evs ++ [Sent conn (Member complete, NoneObject); Closed conn],
         @Exited E B)
    = (setup ++ InitCalled :: map (enqueue conn) records ++ evs)
        ++ [Sent conn (Member complete, NoneObject); Closed conn]).
  { cbn [fst app]. rewrite <- !app_assoc. cbn [app]. now rewrite <- app_assoc. }
  assert (Hcases : how = Exhausted \/ how = Broke) by exact Hloop.
  destruct how as [| |b]; try (destruct Hcases; discriminate);
    (split; [reflexivity|]); (split; [eexists; split; [exact Hshape|] |]).
  1,3: rewrite sent_app, Hsetup; cbn [app sent]; rewrite sent_app, sent_enqueue,
    !filter_app, Hnone, app_nil_r; clear; induction records; [reflexivity | assumption].
  - discriminate.
  - intros _. destruct (Hbroke eq_refl) as [evs' [e ->]].
    exists (sent (setup ++ InitCalled :: map (enqueue conn) records ++ evs')), e.
    rewrite Hshape, !sent_app. cbn [sent app]. rewrite !sent_app. cbn [sent].
    rewrite <- !app_assoc. reflexivity.
Qed.

Lemma complete_sent_once_witness :
  let worker := process_loop demo_task demo_init true 0 20 (map PyArgs [1; 3; 4]) in
  snd worker = Exited
  /\ (exists before,
        fst worker
        = before ++ [Sent 0 (Member complete, NoneObject); Closed 0]
        /\ filter (has_tag (Member complete)) (sent before) = [])
  /\ (snd (task_loop demo_task 0 (map PyArgs [1; 3; 4])) = Broke ->
      exists earlier e,
        sent (fst worker)
        = earlier ++ [(Member exception, ExceptionObject e);
                      (Member complete, NoneObject)]).
Proof.
  apply (complete_sent_once demo_task demo_init true 0 20 (map PyArgs [1; 3; 4])).
  - reflexivity.
  - right. reflexivity.
Defined.

(** ** The coordinator *)

Section CoordinatorFacts.
Context {E B Args Value : Type}.
Implicit Types (st : receiving E Value) (processes : list Process).
Implicit Types (evs : list (event E Args Value)) (e : Exception E) (x : E).

Lemma tag_eqb_eq (t u : tag) : tag_eqb t u = true -> t = u.
Proof.
  destruct t as [[]|s], u as [[]|s']; cbn; try discriminate; try reflexivity.
  intros H. apply String.eqb_eq in H. now subst.
Qed.

(** What [dispatch] does with a message, tag by tag. *)
Lemma dispatch_unknown processes st c msg_type msg st' :
  recv st c = Received (msg_type, msg) st' ->
  tag_eqb msg_type (Member result) = false ->
  tag_eqb msg_type (Str "log") = false ->
  tag_eqb msg_type (Member complete) = false ->
  tag_eqb msg_type (Member exception) = false ->
  dispatch (Args:=Args) processes st (AConnection c) = ([], Ok st').
Proof.
  intros Hrecv H1 H2 H3 H4. unfold dispatch.
  rewrite Hrecv, H1, H2, H3, H4. reflexivity.
Qed.

Lemma dispatch_exception processes st c e st' :
  recv st c = Received (Member exception, ExceptionObject e) st' ->
  dispatch (Args:=Args) processes st (AConnection c)
  = (map Terminated processes, Raise e).
Proof. intros Hrecv. unfold dispatch. rewrite Hrecv. reflexivity. Qed.

Lemma dispatch_log processes st c record st' :
  recv st c = Received (Str "log", RecordObject record) st' ->
  dispatch (Args:=Args) processes st (AConnection c)
  = ([LogHandled (record_name record) record], Ok st').
Proof. intros Hrecv. unfold dispatch. rewrite Hrecv. reflexivity. Qed.

Lemma remove_connection_not_TaskError st c x :
  remove_connection st c <> Raise (TaskError x).
Proof.
  unfold remove_connection. destruct (list_remove c (connections st)); discriminate.
Qed.

(** A step that goes on neither creates nor stops a process; a step that
    raises a task's error has asked every process to terminate. *)
Lemma dispatch_events processes st ready evs next :
  dispatch processes st ready = (evs, next) ->
  match next with
  | Ok _ => Forall (fun ev => uses_processes ev = false) evs
  | Raise (TaskError x) => evs = map Terminated processes
  | Raise _ => True
  end.
Proof.
  unfold dispatch. destruct ready as [c|]; [|intros [= <- <-]; exact I].
  destruct (recv st c) as [|[msg_type msg] st1].
  { intros [= <- <-]. pose proof (remove_connection_not_TaskError st c) as Hr.
    destruct (remove_connection st c) as [|[]]; try constructor.
    now destruct (Hr e). }
  destruct (tag_eqb msg_type (Member result)).
  { intros [= <- <-]. repeat constructor. }
  destruct (tag_eqb msg_type (Str "log")).
  { destruct msg; intros [= <- <-]; try exact I. repeat constructor. }
  destruct (tag_eqb msg_type (Member complete)).
  { intros [= <- <-]. pose proof (remove_connection_not_TaskError st1 c) as Hr.
    destruct (remove_connection st1 c) as [|[]]; try constructor.
    now destruct (Hr e). }
  destruct (tag_eqb msg_type (Member exception)).
  { intros [= <- <-]. destruct msg as [|v|[]|r]; try exact I. reflexivity. }
  intros [= <- <-]. constructor.
Qed.

Lemma for_ready_events processes ready st evs next :
  for_ready processes ready st = (evs, next) ->
  match next with
  | Ok _ => Forall (fun ev => uses_processes ev = false) evs
  | Raise (TaskError x) =>
      exists before,
        evs = before ++ map Terminated processes
        /\ Forall (fun ev => uses_processes ev = false) before
  | Raise _ => True
  end.
Proof.
  revert st evs next. induction ready as [|r ready IH]; intros st evs next.
  - intros [= <- <-]. constructor.
  - cbn [for_ready].
    destruct (dispatch processes st r) as [evs1 next1] eqn:Hd.
    apply dispatch_events in Hd. destruct next1 as [st1|e1].
    + destruct (for_ready processes ready st1) as [evs2 next2] eqn:Hf.
      apply IH in Hf. intros [= <- <-].
      destruct next2 as [st2|[| | | |x]]; try exact I.
      * apply Forall_app. now split.
      * destruct Hf as [before [-> Hbefore]]. exists (evs1 ++ before).
        split; [now rewrite app_assoc | apply Forall_app; now split].
    + intros [= <- <-]. destruct e1 as [| | | |x]; try exact I.
      exists []. split; [exact Hd | constructor].
Qed.

Lemma receive_loop_events processes schedule st evs (final : run_end E B) :
  receive_loop processes schedule st = (evs, final) ->
  match final with
  | Raised (Error (TaskError x)) =>
      exists before,
        evs = before ++ map Terminated processes
        /\ Forall (fun ev => uses_processes ev = false) before
  | Raised _ => True
  | _ => Forall (fun ev => uses_processes ev = false) evs
  end.
Proof.
  revert st evs final.
  induction schedule as [|ready schedule IH]; intros st evs final;
    cbn [receive_loop]; destruct (connections st);
    try (intros [= <- <-]; constructor).
  destruct (for_ready processes ready st) as [evs1 next1] eqn:Hf.
  apply for_ready_events in Hf. destruct next1 as [st1|e1].
  - destruct (receive_loop processes schedule st1) as [evs2 final2] eqn:Hr.
    apply IH in Hr. intros [= <- <-].
    destruct final2 as [|[[| | | |x]|b]|]; try exact I;
      try (apply Forall_app; now split).
    destruct Hr as [before [-> Hbefore]]. exists (evs1 ++ before).
    split; [now rewrite app_assoc | apply Forall_app; now split].
  - intros [= <- <-]. destruct e1 as [| | | |x]; try exact I. exact Hf.
Qed.

End CoordinatorFacts.

Section RunFacts.
Context {E B Args Value : Type}.
Variable task : Args -> list LogRecord * outcome E B Value.
Variable user_init : list LogRecord * option (thrown E B).
Variables (has_SIGBUS : bool) (root_level : Z).
Implicit Types (evs trace : list (event E Args Value)).

Lemma create_workers_events p (grouped : list (list (object Args))) :
  Forall (fun ev : event E Args Value => is_Joined ev = false /\ is_InitCalled ev = false)
    (create_workers root_level p grouped).
Proof.
  revert p. induction grouped as [|chunk rest IH]; intros p; cbn [create_workers];
    repeat constructor. apply IH.
Qed.

Lemma run_directly_events task_arguments :
  Forall (fun ev => uses_processes ev = false /\ is_InitCalled ev = false)
    (fst (run_directly task task_arguments)).
Proof.
  induction task_arguments as [|args rest IH]; [constructor|].
  cbn [run_directly]. destruct (snd (call task args)); try (repeat constructor).
  destruct (run_directly task rest). cbn [fst] in *. repeat constructor. exact IH.
Qed.

Lemma run_directly_returns task_arguments values :
  Forall2 (fun a v => snd (call task a) = Returns v) task_arguments values ->
  run_directly task task_arguments
  = (flat_map (fun av => [TaskCalled (fst av); TaskFinished (ResultObject (snd av))])
       (combine task_arguments values), Returned).
Proof.
  induction 1 as [|a v rest values Ha _ IH]; [reflexivity|].
  cbn [run_directly combine flat_map fst snd app]. now rewrite Ha, IH.
Qed.

Lemma run_directly_prefix task_arguments :
  exists later, task_arguments = calls (fst (run_directly task task_arguments)) ++ later.
Proof.
  induction task_arguments as [|args rest [later IH]]; [now exists []|].
  cbn [run_directly]. destruct (snd (call task args)).
  - destruct (run_directly task rest). cbn [fst calls] in *. exists later.
    cbn [app]. now f_equal.
  - now exists rest.
  - now exists rest.
Qed.

Lemma grouped_args_empty (max_workers : Z) :
  (0 <= max_workers)%Z ->
  grouped_args (E:=E) (Args:=Args) max_workers [] = Ok [].
Proof.
  intros HW. unfold grouped_args, split_every.
  destruct (Z.ltb_spec max_workers 0) as [|_]; [lia|].
  cbn [length take_chunks islice]. rewrite firstn_nil. reflexivity.
Qed.
End RunFacts.

Lemma grouped_args_raises {E Args : Type} (max_workers : Z)
  (task_arguments : list (object Args)) (e : Exception E) :
  grouped_args max_workers task_arguments = Raise e -> e = ValueError.
Proof.
  unfold grouped_args, split_every. destruct (max_workers <? 0)%Z; congruence.
Qed.

(** C2, amended: when the coordinator receives an exception message, it asks
    every process of the pool to terminate and raises the received error; a
    run of the multi-process branch that raises a task's error consists of the
    creation and start of the workers, callbacks and forwarded log records,
    the termination request to every worker, and the exit of the progress
    sink, with no process waited for; the processes are waited for (joined),
    every one of them, when the receive loop ends without an exception. *)
Theorem exception_terminates_every_worker {E B Args Value : Type}
  (task : Args -> list LogRecord * outcome E B Value)
  (user_init : list LogRecord * option (thrown E B))
  (has_SIGBUS : bool) (root_level : Z) :
  (forall processes (st : receiving E Value) c e st',
      recv st c = Received (Member exception, ExceptionObject e) st' ->
      dispatch (Args:=Args) processes st (AConnection c)
      = (map Terminated processes, Raise e))
  /\ (forall use_threads max_workers task_arguments schedule trace x,
        use_threads && (max_workers =? 1)%Z = false ->
        _execute task user_init has_SIGBUS root_level use_threads max_workers
          task_arguments schedule = (trace, Raised (Error (TaskError x))) ->
        exists grouped evs,
          grouped_args (E:=E) max_workers task_arguments = Ok grouped
          /\ trace = create_workers root_level 0 grouped
                       ++ map Started (seq 0 (length grouped))
                       ++ ProgressEntered :: evs
                       ++ map Terminated (seq 0 (length grouped))
                       ++ [ProgressExited]
          /\ Forall (fun ev => uses_processes ev = false) evs)
  /\ (forall use_threads max_workers task_arguments schedule trace,
        use_threads && (max_workers =? 1)%Z = false ->
        _execute task user_init has_SIGBUS root_level use_threads max_workers
          task_arguments schedule = (trace, Returned) ->
        exists grouped,
          grouped_args (E:=E) max_workers task_arguments = Ok grouped
          /\ (grouped = [] /\ trace = []
              \/ exists evs,
                   trace = create_workers root_level 0 grouped
                             ++ map Started (seq 0 (length grouped))
                             ++ ProgressEntered :: evs
                             ++ ProgressExited
                             :: map Joined (seq 0 (length grouped)))).
Proof.
  split; [|split].
  - intros processes st c e st'. apply dispatch_exception.
  - intros use_threads max_workers task_arguments schedule trace x Hmode.
    unfold _execute. rewrite Hmode.
    destruct (grouped_args (E:=E) max_workers task_arguments) as [grouped|e] eqn:Hg.
    2:{ apply grouped_args_raises in Hg. subst e. discriminate. }
    destruct grouped as [|chunk grouped]; [discriminate|].
    set (groups := chunk :: grouped) in *.
    destruct (receive_loop _ schedule _) as [evs final] eqn:Hloop.
    apply receive_loop_events in Hloop.
    destruct final as [|t|]; intros [= <- Ht]. subst t.
    destruct Hloop as [before [-> Hbefore]].
    exists groups, before. split; [reflexivity|]. split; [|exact Hbefore].
    subst groups. cbn [create_workers length seq map app]. do 2 f_equal.
    rewrite <- !app_assoc. reflexivity.
  - intros use_threads max_workers task_arguments schedule trace Hmode.
    unfold _execute. rewrite Hmode.
    destruct (grouped_args (E:=E) max_workers task_arguments) as [grouped|e] eqn:Hg;
      [|discriminate].
    destruct grouped as [|chunk grouped].
    { intros [= <-]. exists []. split; [reflexivity | now left]. }
    set (groups := chunk :: grouped) in *.
    destruct (receive_loop _ schedule _) as [evs final] eqn:Hloop.
    destruct final as [|t|]; intros [= <-].
    exists groups. split; [reflexivity|]. right. exists evs.
    subst groups. cbn [create_workers length seq map app]. do 2 f_equal.
    rewrite <- !app_assoc. reflexivity.
Qed.

Lemma exception_terminates_every_worker_witness :
  let run := demo_execute false 2 (map PyArgs [1; 2; 3; 4]) demo_schedule in
  snd run = Raised (Error (TaskError "boom"%string))
  /\ exists grouped evs,
       grouped_args (E:=string) 2 (map PyArgs [1; 2; 3; 4]) = Ok grouped
       /\ fst run = create_workers 20 0 grouped
                      ++ map Started (seq 0 (length grouped))
                      ++ ProgressEntered :: evs
                      ++ map Terminated (seq 0 (length grouped))
                      ++ [ProgressExited]
       /\ Forall (fun ev => uses_processes ev = false) evs.
Proof.
  cbv zeta. split; [reflexivity|].
  apply (proj1 (proj2 (exception_terminates_every_worker
                         demo_task demo_init true 20))
           false 2%Z (map PyArgs [1; 2; 3; 4]) demo_schedule _ "boom"%string).
  - reflexivity.
  - reflexivity.
Defined.

(** C2 as stated fails: the error leaves [_execute] and no process was
    joined. *)
Lemma exception_leaves_processes_unjoined :
  let run := demo_execute false 2 (map PyArgs [1; 2; 3; 4]) demo_schedule in
  snd run = Raised (Error (TaskError "boom"%string))
  /\ In (Started 0) (fst run) /\ In (Started 1) (fst run)
  /\ Forall (fun ev => is_Joined ev = false) (fst run).
Proof.
  cbv zeta. split; [reflexivity|]. split; [|split].
  - vm_compute. tauto.
  - vm_compute. tauto.
  - vm_compute. repeat constructor.
Qed.

(** C4, amended: a message whose tag is none of [result], ['log'], [complete]
    and [exception] is discarded and the receive loop goes on with the next
    ready object; what the receive loop treats as fatal is a ready object that
    is not a [Connection], for which it raises [NotImplementedError]. *)
Theorem unknown_tag_is_ignored {E Args Value : Type} (processes : list Process)
  (st : receiving E Value) (c : Connection) (msg_type : tag)
  (msg : payload E Value) (st' : receiving E Value) :
  recv st c = Received (msg_type, msg) st' ->
  msg_type <> Member result -> msg_type <> Str "log" ->
  msg_type <> Member complete -> msg_type <> Member exception ->
  dispatch (Args:=Args) processes st (AConnection c) = ([], Ok st')
  /\ dispatch (Args:=Args) processes st NotAConnection
     = ([], Raise (NotImplementedError "We only support Connection()")).
Proof.
  intros Hrecv H1 H2 H3 H4. split; [|reflexivity].
  apply (dispatch_unknown processes st c msg_type msg st' Hrecv);
    (destruct (tag_eqb msg_type _) eqn:Heq; [apply tag_eqb_eq in Heq; contradiction | reflexivity]).
Qed.

Lemma unknown_tag_is_ignored_witness :
  dispatch (Args:=nat) [0] odd_channel (AConnection 0)
  = ([], Ok {| connections := [0];
               pending := fun c' => if Nat.eqb c' 0
                                    then [(Member complete, NoneObject)]
                                    else pending odd_channel c' |})
  /\ dispatch (Args:=nat) [0] odd_channel NotAConnection
     = ([], Raise (NotImplementedError "We only support Connection()")).
Proof.
  apply (unknown_tag_is_ignored (Args:=nat) [0] odd_channel 0 (Str "bogus") NoneObject);
    [reflexivity | discriminate ..].
Defined.

(** C4 as stated fails: the message is dropped and the run ends normally. *)
Lemma unknown_tag_run_returns :
  receive_loop (B:=unit) (Args:=nat) [0] [[AConnection 0]; [AConnection 0]]
    odd_channel = ([], Returned).
Proof. reflexivity. Qed.

(** C6: with [use_threads] true and [max_workers = 1], for every task-argument
    sequence, the run creates no pipe and no process; the task is called in
    the coordinator on the arguments as they were given (not grouped, not
    filtered), in input order; and when every call returns, the run is
    exactly: enter the progress sink, then for each argument tuple in input
    order the call followed by the result callback on its value and the sink,
    then leave the progress sink and return. *)
Theorem single_worker_runs_directly {E B Args Value : Type}
  (task : Args -> list LogRecord * outcome E B Value)
  (user_init : list LogRecord * option (thrown E B))
  (has_SIGBUS : bool) (root_level : Z)
  (task_arguments : list (object Args)) (schedule : list (list ready_object)) :
  let run := _execute task user_init has_SIGBUS root_level true 1
               task_arguments schedule in
  Forall (fun ev => uses_processes ev = false) (fst run)
  /\ (exists later, task_arguments = calls (fst run) ++ later)
  /\ (forall values,
        Forall2 (fun a v => snd (call task a) = Returns v) task_arguments values ->
        run = (ProgressEntered
                 :: flat_map (fun av => [TaskCalled (fst av);
                                         TaskFinished (ResultObject (snd av))])
                      (combine task_arguments values)
                 ++ [ProgressExited], Returned)).
Proof.
  cbv zeta. unfold _execute. cbn [andb Z.eqb Pos.eqb].
  pose proof (run_directly_events task task_arguments) as Hev.
  pose proof (run_directly_prefix task task_arguments) as [later Hlater].
  pose proof (run_directly_returns task task_arguments) as Hret.
  destruct (run_directly task task_arguments) as [evs final].
  cbn [fst snd] in *. split; [|split].
  - constructor; [reflexivity|]. apply Forall_app. split.
    + eapply Forall_impl; [|exact Hev]. now intros ev [H _].
    + repeat constructor.
  - exists later. cbn [calls]. rewrite calls_app. cbn [calls].
    now rewrite app_nil_r.
  - intros values Hvalues. specialize (Hret values Hvalues).
    injection Hret as -> ->. reflexivity.
Qed.

Lemma single_worker_runs_directly_witness :
  demo_execute true 1 (map PyArgs [1; 2; 5]) []
  = ([ProgressEntered;
      TaskCalled (PyArgs 1); TaskFinished (ResultObject 2);
      TaskCalled (PyArgs 2); TaskFinished (ResultObject 4);
      TaskCalled (PyArgs 5); TaskFinished (ResultObject 10);
      ProgressExited], Returned).
Proof.
  apply (proj2 (proj2 (single_worker_runs_directly demo_task demo_init true 20
                         (map PyArgs [1; 2; 5]) [])) [2; 4; 10]).
  repeat constructor.
Defined.

(** C7: on an empty task-argument sequence the run creates no pipe and no
    process and never calls the result callback; for a worker count that is
    not negative it returns, and in the multi-process branch the partition has
    zero groups and the run returns at once, with nothing done. *)
Theorem empty_run_spawns_nothing {E B Args Value : Type}
  (task : Args -> list LogRecord * outcome E B Value)
  (user_init : list LogRecord * option (thrown E B))
  (has_SIGBUS : bool) (root_level : Z)
  (use_threads : bool) (max_workers : Z) (schedule : list (list ready_object)) :
  let run := _execute task user_init has_SIGBUS root_level use_threads
               max_workers [] schedule in
  Forall (fun ev => uses_processes ev = false) (fst run)
  /\ finished (fst run) = []
  /\ ((0 <= max_workers)%Z -> snd run = Returned)
  /\ ((0 <= max_workers)%Z -> use_threads && (max_workers =? 1)%Z = false ->
      grouped_args (E:=E) (Args:=Args) max_workers [] = Ok [] /\ run = ([], Returned)).
Proof.
  cbv zeta. unfold _execute.
  destruct (use_threads && (max_workers =? 1)%Z) eqn:Hmode.
  - cbn [run_directly fst snd app finished].
    repeat split; try discriminate; repeat constructor.
  - destruct (Z.ltb_spec max_workers 0) as [Hneg|Hpos].
    + assert (Hg : grouped_args (E:=E) (Args:=Args) max_workers [] = Raise ValueError).
      { unfold grouped_args, split_every.
        destruct (Z.ltb_spec max_workers 0); [reflexivity | lia]. }
      rewrite Hg. cbn [fst snd finished].
      repeat split; try constructor; intros; lia.
    + rewrite (grouped_args_empty max_workers Hpos). cbn [fst snd finished].
      repeat split; constructor.
Qed.

Lemma empty_run_spawns_nothing_witness :
  grouped_args (E:=string) (Args:=nat) 4 [] = Ok []
  /\ demo_execute false 4 [] demo_schedule = ([], Returned).
Proof.
  apply (proj2 (proj2 (proj2 (empty_run_spawns_nothing demo_task demo_init true 20
                                false 4 demo_schedule))));
    [lia | reflexivity].
Defined.

(** C8: the log records a worker puts on its channel are exactly the records
    emitted by the initializer and by the calls of the task, in order, each
    sent as a message tagged ['log'] that carries the record itself; and when
    the coordinator receives the message that the handler sent for a record,
    it hands that same record, level and message included, to the logger named
    by the record's logger name. *)
Theorem log_records_are_forwarded {E B Args Value : Type}
  (task : Args -> list LogRecord * outcome E B Value)
  (user_init : list LogRecord * option (thrown E B)) (has_SIGBUS : bool) :
  (forall conn loglevel task_args,
      let worker :=
        fst (process_loop task user_init has_SIGBUS conn loglevel task_args) in
      log_records (sent worker)
      = fst user_init ++ flat_map (fun a => fst (call task a)) (calls worker))
  /\ (forall processes (st : receiving E Value) c conn record m st',
        sent [enqueue (E:=E) (Args:=Args) (Value:=Value) conn record] = [m] ->
        recv st c = Received m st' ->
        dispatch (Args:=Args) processes st (AConnection c)
        = ([LogHandled (record_name record) record], Ok st')).
Proof.
  split.
  - intros conn loglevel task_args. cbv zeta. unfold process_loop, run_tasks.
    destruct user_init as [records raised]. cbn [fst].
    set (setup := (if has_SIGBUS then [SigbusHandlerInstalled] else [])
                    ++ [LogHandlersRemoved; LevelSet loglevel; HandlerAdded conn]).
    assert (Hsetup : sent setup = [] /\ calls setup = [])
      by (unfold setup; destruct has_SIGBUS; split; reflexivity).
    destruct Hsetup as [Hsent Hcalls].
    pose proof (task_loop_log_records task conn task_args) as Hloop.
    destruct raised as [t|].
    + cbn [fst]. rewrite sent_app, calls_app, Hsent, Hcalls. cbn [app sent calls].
      rewrite sent_enqueue, calls_enqueue, log_records_logs. cbn [flat_map].
      now rewrite app_nil_r.
    + destruct (task_loop task conn task_args) as [evs how]. cbn [fst] in Hloop.
      assert (Hany : forall tail : list (event E Args Value),
                 sent tail = filter (has_tag (Member complete)) (sent tail) ->
                 calls tail = [] ->
                 log_records (sent (setup ++ (InitCalled :: map (enqueue conn) records)
                                      ++ evs ++ tail))
                 = records
                     ++ flat_map (fun a => fst (call task a))
                          (calls (setup ++ (InitCalled :: map (enqueue conn) records)
                                    ++ evs ++ tail))).
      { intros tail Htail Hnone.
        rewrite !sent_app, !calls_app, Hsent, Hcalls, Hnone. cbn [app sent calls].
        rewrite sent_enqueue, calls_enqueue, !log_records_app, log_records_logs.
        rewrite Hloop, app_nil_r. cbn [app]. f_equal.
        rewrite Htail. clear. induction (sent tail) as [|[[[]|s] p] ms IH];
          cbn; try assumption; try (now rewrite app_nil_r).
        destruct p; cbn; try (now rewrite app_nil_r); assumption. }
      destruct how as [| |b]; cbn [fst].
      * apply Hany; reflexivity.
      * apply Hany; reflexivity.
      * specialize (Hany [] eq_refl eq_refl). now rewrite !app_nil_r in Hany.
  - intros processes st c conn record m st' Hsent Hrecv.
    injection Hsent as <-. now apply dispatch_log.
Qed.

Lemma log_records_are_forwarded_witness :
  fst (dispatch (Args:=nat) [0] log_channel (AConnection 0))
  = [LogHandled "x.y" warning].
Proof.
  rewrite (proj2 (log_records_are_forwarded demo_task demo_init true)
             [0] log_channel 0 0 warning
             (Str "log", RecordObject warning)
             {| connections := [0];
                pending := fun c' => if Nat.eqb c' 0 then []
                                     else pending log_channel c' |}
             eq_refl eq_refl).
  reflexivity.
Defined.

(** C9: the single-worker branch never calls the initializer, whatever the
    task-argument sequence; a worker process calls it exactly once, after the
    logging set-up and before any call of the task. *)
Theorem initializer_runs_in_workers_only {E B Args Value : Type}
  (task : Args -> list LogRecord * outcome E B Value)
  (user_init : list LogRecord * option (thrown E B))
  (has_SIGBUS : bool) (root_level : Z) :
  (forall task_arguments schedule,
      Forall (fun ev => is_InitCalled ev = false)
        (fst (_execute task user_init has_SIGBUS root_level true 1
                task_arguments schedule)))
  /\ (forall conn loglevel task_args,
        exists before after,
          fst (process_loop task user_init has_SIGBUS conn loglevel task_args)
          = before ++ InitCalled :: after
          /\ Forall (fun ev => is_InitCalled ev = false /\ is_TaskCalled ev = false)
               before
          /\ Forall (fun ev => is_InitCalled ev = false) after).
Proof.
  split.
  - intros task_arguments schedule. unfold _execute. cbn [andb Z.eqb Pos.eqb].
    pose proof (run_directly_events task task_arguments) as Hev.
    destruct (run_directly task task_arguments) as [evs final]. cbn [fst] in *.
    constructor; [reflexivity|]. apply Forall_app. split.
    + eapply Forall_impl; [|exact Hev]. now intros ev [_ H].
    + repeat constructor.
  - intros conn loglevel task_args. unfold process_loop, run_tasks.
    destruct user_init as [records raised].
    assert (Hlogs : Forall (fun ev : event E Args Value => is_InitCalled ev = false)
                      (map (enqueue conn) records)).
    { apply Forall_forall. intros ev Hev.
      apply in_map_iff in Hev as [r [<- _]]. reflexivity. }
    pose proof (task_loop_no_init task conn task_args) as Hloop.
    exists ((if has_SIGBUS then [SigbusHandlerInstalled] else [])
              ++ [LogHandlersRemoved; LevelSet loglevel; HandlerAdded conn]).
    assert (Hsetup : Forall (fun ev : event E Args Value =>
                               is_InitCalled ev = false /\ is_TaskCalled ev = false)
                       ((if has_SIGBUS then [SigbusHandlerInstalled] else [])
                          ++ [LogHandlersRemoved; LevelSet loglevel; HandlerAdded conn])).
    { destruct has_SIGBUS; repeat constructor. }
    destruct raised as [t|].
    + exists (map (enqueue conn) records). cbn [fst]. auto.
    + destruct (task_loop task conn task_args) as [evs how]. cbn [fst] in Hloop.
      destruct how as [| |b]; cbn [fst];
        eexists; (split; [reflexivity|]); (split; [exact Hsetup|]);
        apply Forall_app; split; auto; apply Forall_app; split; auto;
        repeat constructor.
Qed.

(** * Further properties *)

(** ** split_every *)
Section Chunks.
Context {A : Type}.
Implicit Types (l : list A).

Lemma chunks_nil fuel n : take_chunks fuel n (@nil A) = [].
Proof. destruct fuel; [reflexivity|]. cbn. rewrite firstn_nil. reflexivity. Qed.

Lemma chunks_step fuel n l :
  0 < n -> l <> [] ->
  take_chunks (S fuel) n l = firstn n l :: take_chunks fuel n (skipn n l).
Proof.
  intros Hn Hl. cbn [take_chunks islice].
  destruct n as [|n]; [lia|]. destruct l as [|o l]; [congruence|]. reflexivity.
Qed.

Lemma chunks_zero fuel l : take_chunks fuel 0 l = [].
Proof. destruct fuel; reflexivity. Qed.

(** All chunks but the last are full, the last one holds what is left. *)
Lemma chunks_nth fuel n l k :
  0 < n -> length l < fuel ->
  nth_error (take_chunks fuel n l) k
  = if k * n <? length l then Some (firstn n (skipn (k * n) l)) else None.
Proof.
  intros Hn. revert l k. induction fuel as [|fuel IH]; intros l k Hl; [lia|].
  destruct l as [|x l].
  { rewrite chunks_nil, nth_error_nil. cbn [length].
    destruct (Nat.ltb_spec (k * n) 0); [lia | reflexivity]. }
  rewrite chunks_step by (auto; discriminate).
  destruct k as [|k].
  - cbn [nth_error Nat.mul skipn]. cbn [length].
    destruct (Nat.ltb_spec 0 (S (length l))); [reflexivity | lia].
  - cbn [nth_error]. rewrite IH by (rewrite length_skipn; cbn [length] in *; lia).
    rewrite length_skipn, skipn_skipn.
    replace (k * n + n) with (S k * n) by lia.
    destruct (Nat.ltb_spec (k * n) (length (x :: l) - n)),
             (Nat.ltb_spec (S k * n) (length (x :: l))); try reflexivity; lia.
Qed.

Lemma chunks_length fuel n l :
  0 < n -> length l < fuel ->
  length (take_chunks fuel n l) = (length l + n - 1) / n.
Proof.
  intros Hn. revert l. induction fuel as [|fuel IH]; intros l Hl; [lia|].
  destruct l as [|x l].
  { rewrite chunks_nil. cbn [length]. symmetry. apply Nat.div_small. lia. }
  rewrite chunks_step by (auto; discriminate). cbn [length].
  rewrite IH by (rewrite length_skipn; cbn [length] in *; lia).
  rewrite length_skipn. cbn [length].
  destruct (Nat.le_gt_cases (S (length l)) n) as [Hle|Hgt].
  - replace (S (length l) - n) with 0 by lia.
    rewrite (Nat.div_small (0 + n - 1)) by lia.
    apply (Nat.div_unique _ _ 1 (length l)); lia.
  - replace (S (length l) + n - 1) with ((S (length l) - n + n - 1) + 1 * n) by lia.
    rewrite Nat.div_add by lia. lia.
Qed.

Lemma chunks_concat fuel n l :
  0 < n -> length l < fuel -> concat (take_chunks fuel n l) = l.
Proof.
  intros Hn. revert l. induction fuel as [|fuel IH]; intros l Hl; [lia|].
  destruct l as [|o l]; [now rewrite chunks_nil|].
  rewrite chunks_step by (auto; discriminate).
  cbn [concat]. rewrite IH, firstn_skipn; [reflexivity|].
  rewrite length_skipn. cbn [length] in *. lia.
Qed.
End Chunks.

(** X1: for [n >= 1], [split_every] loses nothing and repeats nothing (the
    chunks put end to end are the input); chunk [k] exists exactly when
    [k * n] is below the length of the input, and is then the [n] elements
    from position [k * n] on, or those that are left; so there are
    [ceil (T / n)] chunks, each with at least one and at most [n] elements. *)
Theorem split_every_chunks {E A : Type} (n : Z) (l : list A) :
  (1 <= n)%Z ->
  exists chunks,
    split_every (E:=E) n l = Ok chunks
    /\ concat chunks = l
    /\ length chunks = (length l + Z.to_nat n - 1) / Z.to_nat n
    /\ (forall k, nth_error chunks k
                  = if k * Z.to_nat n <? length l
                    then Some (firstn (Z.to_nat n) (skipn (k * Z.to_nat n) l))
                    else None)
    /\ (forall chunk, In chunk chunks -> 1 <= length chunk <= Z.to_nat n).
Proof.
  intros Hn. unfold split_every. destruct (Z.ltb_spec n 0) as [|_]; [lia|].
  eexists. split; [reflexivity|].
  assert (Hpos : 0 < Z.to_nat n) by lia.
  split; [apply chunks_concat; lia|].
  split; [apply chunks_length; lia|].
  split; [intros k; apply chunks_nth; lia|].
  intros chunk Hin. apply In_nth_error in Hin as [k Hk].
  rewrite chunks_nth in Hk by lia.
  destruct (Nat.ltb_spec (k * Z.to_nat n) (length l)) as [Hlt|]; [|discriminate].
  injection Hk as <-. rewrite length_firstn, length_skipn. lia.
Qed.

Lemma split_every_chunks_witness :
  exists chunks,
    split_every (E:=unit) 4 (seq 0 10) = Ok chunks
    /\ concat chunks = seq 0 10
    /\ length chunks = 3
    /\ (forall k, nth_error chunks k
                  = if k * 4 <? 10 then Some (firstn 4 (skipn (k * 4) (seq 0 10)))
                    else None)
    /\ (forall chunk, In chunk chunks -> 1 <= length chunk <= 4).
Proof. apply (split_every_chunks (E:=unit) 4 (seq 0 10)). lia. Defined.

(** X2: with a worker count of zero [_execute] returns at once and does
    nothing at all, whatever the tasks: no process, no call of the task, no
    callback; with a negative worker count it raises the [ValueError] of
    [islice], again before doing anything. *)
Theorem nonpositive_worker_count {E B Args Value : Type}
  (task : Args -> list LogRecord * outcome E B Value)
  (user_init : list LogRecord * option (thrown E B))
  (has_SIGBUS : bool) (root_level : Z) (use_threads : bool) (max_workers : Z)
  (task_arguments : list (object Args)) (schedule : list (list ready_object)) :
  (max_workers <= 0)%Z ->
  _execute task user_init has_SIGBUS root_level use_threads max_workers
    task_arguments schedule
  = ([], if (max_workers =? 0)%Z then Returned else Raised (Error ValueError)).
Proof.
  intros HW. unfold _execute.
  destruct (Z.eqb_spec max_workers 1) as [|_]; [lia|]. rewrite andb_false_r.
  unfold grouped_args, split_every.
  destruct (Z.ltb_spec max_workers 0) as [Hneg|Hzero].
  - destruct (Z.eqb_spec max_workers 0); [lia | reflexivity].
  - assert (max_workers = 0%Z) as -> by lia. cbn [Z.to_nat Z.eqb].
    rewrite chunks_zero. reflexivity.
Qed.

Lemma nonpositive_worker_count_witness :
  demo_execute false 0 (map PyArgs [1; 2; 3]) demo_schedule = ([], Returned)
  /\ demo_execute true (-2) (map PyArgs [1; 2; 3]) demo_schedule
     = ([], Raised (Error ValueError)).
Proof.
  split.
  - apply (nonpositive_worker_count demo_task demo_init true 20 false 0). lia.
  - apply (nonpositive_worker_count demo_task demo_init true 20 true (-2)). lia.
Defined.

(** X3: in the single-worker branch, when the task returns on the argument
    tuples [before] and raises on [args], the run calls the callback for the
    tuples of [before], in order, calls the task on [args], leaves the
    progress sink and raises what the task raised (an [Exception] or not); no
    later tuple is touched. *)
Theorem single_worker_failure {E B Args Value : Type}
  (task : Args -> list LogRecord * outcome E B Value)
  (user_init : list LogRecord * option (thrown E B))
  (has_SIGBUS : bool) (root_level : Z)
  (before : list (object Args)) (args : object Args)
  (after : list (object Args)) (values : list Value) (t : thrown E B)
  (schedule : list (list ready_object)) :
  Forall2 (fun a v => snd (call task a) = Returns v) before values ->
  escapes (snd (call task args)) = Some t ->
  _execute task user_init has_SIGBUS root_level true 1
    (before ++ args :: after) schedule
  = (ProgressEntered
       :: flat_map (fun av => [TaskCalled (fst av);
                               TaskFinished (ResultObject (snd av))])
            (combine before values)
       ++ [TaskCalled args; ProgressExited],
     Raised t).
Proof.
  intros Hbefore Hargs. unfold _execute. cbn [andb Z.eqb Pos.eqb].
  assert (Hrun : run_directly task (before ++ args :: after)
                 = (flat_map (fun av => [TaskCalled (fst av);
                                         TaskFinished (ResultObject (snd av))])
                      (combine before values) ++ [TaskCalled args], Raised t)).
  { induction Hbefore as [|a v before values Ha _ IH].
    - cbn [app combine flat_map run_directly].
      destruct (snd (call task args)); cbn [escapes] in Hargs;
        [discriminate | injection Hargs as <- | injection Hargs as <-]; reflexivity.
    - cbn [app combine flat_map run_directly fst snd]. now rewrite Ha, IH. }
  rewrite Hrun. now rewrite <- app_assoc.
Qed.

Lemma single_worker_failure_witness :
  demo_execute true 1 (map PyArgs [1; 2; 3; 4]) []
  = ([ProgressEntered;
      TaskCalled (PyArgs 1); TaskFinished (ResultObject 2);
      TaskCalled (PyArgs 2); TaskFinished (ResultObject 4);
      TaskCalled (PyArgs 3); ProgressExited],
     Raised (Error (TaskError "boom"%string))).
Proof.
  apply (single_worker_failure demo_task demo_init true 20
           (map PyArgs [1; 2]) (PyArgs 3) [PyArgs 4] [2; 4]).
  - repeat constructor.
  - reflexivity.
Defined.

Section WorkerStreams.
Context {E B Args Value : Type}.
Variable task : Args -> list LogRecord * outcome E B Value.
Variable user_init : list LogRecord * option (thrown E B).
Variable has_SIGBUS : bool.

Implicit Types (trace evs : list (event E Args Value)) (conn : Connection).
Implicit Types (ms : list (message E Value)) (m : message E Value).

Lemma results_app ms ms' : results (ms ++ ms') = results ms ++ results ms'.
Proof.
  induction ms as [|[t p] ms IH]; [reflexivity|].
  cbn [app results]. rewrite IH. now destruct (tag_eqb t (Member result)).
Qed.

Lemma results_logs records :
  results (map (fun r => (Str "log", @RecordObject E Value r)) records) = [].
Proof. induction records as [|r rs IH]; [reflexivity | exact IH]. Qed.

Lemma sent_setup conn loglevel :
  sent ((if has_SIGBUS then [@SigbusHandlerInstalled E Args Value] else [])
          ++ [LogHandlersRemoved; LevelSet loglevel; HandlerAdded conn]) = []
  /\ calls ((if has_SIGBUS then [@SigbusHandlerInstalled E Args Value] else [])
              ++ [LogHandlersRemoved; LevelSet loglevel; HandlerAdded conn]) = [].
Proof. destruct has_SIGBUS; split; reflexivity. Qed.

(** The messages of a worker whose initializer returned, read off its loop. *)
Lemma sent_process_loop conn loglevel task_args :
  snd user_init = None ->
  sent (fst (process_loop task user_init has_SIGBUS conn loglevel task_args))
  = sent (map (enqueue (Args:=Args) conn) (fst user_init))
      ++ sent (fst (run_tasks task conn task_args))
  /\ calls (fst (process_loop task user_init has_SIGBUS conn loglevel task_args))
     = calls (fst (run_tasks task conn task_args))
  /\ snd (process_loop task user_init has_SIGBUS conn loglevel task_args)
     = snd (run_tasks task conn task_args).
Proof.
  intros Hinit. unfold process_loop. destruct user_init as [records raised].
  cbn [fst snd] in *. subst raised.
  destruct (sent_setup conn loglevel) as [Hsent Hcalls].
  destruct (run_tasks task conn task_args) as [evs how]. cbn [fst snd].
  rewrite sent_app, calls_app, Hsent, Hcalls. cbn [app sent calls].
  rewrite sent_app, calls_app, calls_enqueue. auto.
Qed.

Lemma sent_process_loop_failed conn loglevel task_args t :
  snd user_init = Some t ->
  process_loop task user_init has_SIGBUS conn loglevel task_args
  = (((if has_SIGBUS then [SigbusHandlerInstalled] else [])
        ++ [LogHandlersRemoved; LevelSet loglevel; HandlerAdded conn])
       ++ InitCalled :: map (enqueue conn) (fst user_init), Died t).
Proof.
  intros Hinit. unfold process_loop. destruct user_init as [records raised].
  cbn [fst snd] in *. subst raised. reflexivity.
Qed.

Lemma run_tasks_all_return conn task_args values :
  Forall2 (fun a v => snd (call task a) = Returns v) task_args values ->
  snd (run_tasks task conn task_args) = Exited
  /\ calls (fst (run_tasks task conn task_args)) = task_args
  /\ protocol (sent (fst (run_tasks task conn task_args)))
     = map (fun v => (Member result, ResultObject v)) values
         ++ [(Member complete, NoneObject)]
  /\ results (sent (fst (run_tasks task conn task_args)))
     = map ResultObject values.
Proof.
  induction 1 as [|a v rest values Ha _ IH]; [repeat split|].
  destruct (call task a) as [recs out] eqn:Hcall. cbn [snd] in Ha. subst out.
  rewrite (run_tasks_returns task conn a rest recs v Hcall). cbn [fst snd].
  destruct IH as [Hexit [Hcalls [Hprot Hres]]].
  split; [exact Hexit|]. cbn [calls sent].
  rewrite calls_app, sent_app, calls_enqueue, sent_enqueue.
  rewrite protocol_app, results_app, protocol_logs, results_logs.
  cbn [app calls sent map]. split; [now rewrite Hcalls|].
  split.
  - unfold protocol at 1. cbn [filter has_tag fst tag_eqb negb].
    fold (protocol (sent (fst (run_tasks task conn rest)))). now rewrite Hprot.
  - cbn [results tag_eqb]. now rewrite Hres.
Qed.

Lemma run_tasks_base_exception conn before args after values b :
  Forall2 (fun a v => snd (call task a) = Returns v) before values ->
  snd (call task args) = RaisesBaseException b ->
  snd (run_tasks task conn (before ++ args :: after)) = Died (BaseError b)
  /\ calls (fst (run_tasks task conn (before ++ args :: after))) = before ++ [args]
  /\ protocol (sent (fst (run_tasks task conn (before ++ args :: after))))
     = map (fun v => (Member result, ResultObject v)) values.
Proof.
  intros Hbefore Hargs. induction Hbefore as [|a v before values Ha _ IH].
  - destruct (call task args) as [recs out] eqn:Hcall. cbn [snd] in Hargs. subst out.
    cbn [app map]. unfold run_tasks.
    rewrite (task_loop_propagates task conn args after recs b Hcall). cbn [fst snd].
    split; [reflexivity|]. cbn [calls sent].
    now rewrite calls_enqueue, sent_enqueue, protocol_logs.
  - destruct (call task a) as [recs out] eqn:Hcall. cbn [snd] in Ha. subst out.
    cbn [app]. rewrite (run_tasks_returns task conn a _ recs v Hcall). cbn [fst snd].
    destruct IH as [Hexit [Hcalls Hprot]]. split; [exact Hexit|].
    cbn [calls sent]. rewrite calls_app, sent_app, calls_enqueue, sent_enqueue.
    rewrite protocol_app, protocol_logs. cbn [app calls sent map].
    split; [now rewrite Hcalls|].
    unfold protocol at 1. cbn [filter has_tag fst tag_eqb negb].
    fold (protocol (sent (fst (run_tasks task conn (before ++ args :: after))))).
    now rewrite Hprot.
Qed.

End WorkerStreams.

(** X4: a worker whose initializer returns and whose task returns on every
    tuple of its group calls the task on the whole group in order, sends one
    result message per tuple, in the same order, then [complete], and exits
    normally. *)
Theorem worker_delivers_every_result {E B Args Value : Type}
  (task : Args -> list LogRecord * outcome E B Value)
  (user_init : list LogRecord * option (thrown E B)) (has_SIGBUS : bool)
  (conn : Connection) (loglevel : Z) (task_args : list (object Args))
  (values : list Value) :
  snd user_init = None ->
  Forall2 (fun a v => snd (call task a) = Returns v) task_args values ->
  let worker := process_loop task user_init has_SIGBUS conn loglevel task_args in
  snd worker = Exited
  /\ calls (fst worker) = task_args
  /\ protocol (sent (fst worker))
     = map (fun v => (Member result, ResultObject v)) values
         ++ [(Member complete, NoneObject)].
Proof.
  intros Hinit Hvalues. cbv zeta.
  destruct (sent_process_loop task user_init has_SIGBUS conn loglevel task_args Hinit)
    as [-> [-> ->]].
  destruct (run_tasks_all_return task conn task_args values Hvalues)
    as [Hexit [Hcalls [Hprot _]]].
  rewrite protocol_app, sent_enqueue, protocol_logs. auto.
Qed.

Lemma worker_delivers_every_result_witness :
  let worker := process_loop demo_task demo_init true 0 20 (map PyArgs [1; 4; 5]) in
  snd worker = Exited
  /\ calls (fst worker) = map PyArgs [1; 4; 5]
  /\ protocol (sent (fst worker))
     = map (fun v => (Member result, ResultObject v)) [2; 8; 10]
         ++ [(Member complete, NoneObject)].
Proof.
  apply (worker_delivers_every_result demo_task demo_init true 0 20
           (map PyArgs [1; 4; 5]) [2; 8; 10]).
  - reflexivity.
  - repeat constructor.
Defined.

(** X5: when the task raises an exception that is not an [Exception]
    ([SystemExit], [KeyboardInterrupt]) on the tuple [args], the worker has
    sent the results of the tuples before it and sends nothing more: no
    exception message, no [complete]; the process dies with that exception
    and the rest of the group is not processed. *)
Theorem worker_dies_without_a_message {E B Args Value : Type}
  (task : Args -> list LogRecord * outcome E B Value)
  (user_init : list LogRecord * option (thrown E B)) (has_SIGBUS : bool)
  (conn : Connection) (loglevel : Z)
  (before : list (object Args)) (args : object Args)
  (after : list (object Args)) (values : list Value) (b : B) :
  snd user_init = None ->
  Forall2 (fun a v => snd (call task a) = Returns v) before values ->
  snd (call task args) = RaisesBaseException b ->
  let worker := process_loop task user_init has_SIGBUS conn loglevel
                  (before ++ args :: after) in
  snd worker = Died (BaseError b)
  /\ calls (fst worker) = before ++ [args]
  /\ protocol (sent (fst worker))
     = map (fun v => (Member result, ResultObject v)) values.
Proof.
  intros Hinit Hbefore Hargs. cbv zeta.
  destruct (sent_process_loop task user_init has_SIGBUS conn loglevel
              (before ++ args :: after) Hinit) as [-> [-> ->]].
  destruct (run_tasks_base_exception task conn before args after values b
              Hbefore Hargs) as [Hexit [Hcalls Hprot]].
  rewrite protocol_app, sent_enqueue, protocol_logs. auto.
Qed.

Lemma worker_dies_without_a_message_witness :
  let worker := process_loop demo_task demo_init true 0 20 (map PyArgs [1; 7; 5]) in
  snd worker = Died (BaseError tt)
  /\ calls (fst worker) = [PyArgs 1] ++ [PyArgs 7]
  /\ protocol (sent (fst worker))
     = map (fun v => (Member result, ResultObject v)) [2].
Proof.
  apply (worker_dies_without_a_message demo_task demo_init true 0 20
           [PyArgs 1] (PyArgs 7) [PyArgs 5] [2] tt).
  - reflexivity.
  - repeat constructor.
  - reflexivity.
Defined.

Section ReceiveFacts.
Context {E B Args Value : Type}.
Implicit Types (st : receiving E Value) (processes : list Process).
Implicit Types (evs : list (event E Args Value)) (c : Connection).
Implicit Types (ms : list (message E Value)) (m : message E Value).

Lemma finished_app evs evs' : finished (evs ++ evs') = finished evs ++ finished evs'.
Proof.
  induction evs as [|ev evs IH]; [reflexivity|].
  destruct ev; cbn [finished app]; rewrite ?IH; reflexivity.
Qed.

Lemma recv_received st c m st' :
  recv st c = Received m st' ->
  pending st c = m :: pending st' c
  /\ (forall c', c' <> c -> pending st' c' = pending st c')
  /\ connections st' = connections st.
Proof.
  unfold recv. destruct (pending st c) as [|m0 later] eqn:Hp; [discriminate|].
  intros [= <- <-]. cbn [pending connections]. rewrite Nat.eqb_refl.
  repeat split. intros c' Hc'. destruct (Nat.eqb_spec c' c); [contradiction | reflexivity].
Qed.

Lemma recv_eof st c : recv st c = EOFError -> pending st c = [].
Proof. unfold recv. now destruct (pending st c). Qed.

Lemma list_remove_some c (l l' : list Connection) :
  list_remove c l = Some l' ->
  exists l1 l2, l = l1 ++ c :: l2 /\ l' = l1 ++ l2 /\ ~ In c l1.
Proof.
  revert l'. induction l as [|c' l IH]; intros l'; [discriminate|].
  cbn [list_remove]. destruct (Nat.eqb_spec c' c) as [->|Hne].
  - intros [= <-]. now exists [], l.
  - destruct (list_remove c l) as [l''|]; [|discriminate]. intros [= <-].
    destruct (IH l'' eq_refl) as [l1 [l2 [-> [-> Hnot]]]].
    exists (c' :: l1), l2. repeat split. intros [H|H]; [congruence | contradiction].
Qed.

Lemma list_remove_none c (l : list Connection) :
  list_remove c l = None <-> ~ In c l.
Proof.
  induction l as [|c' l IH]; cbn [list_remove In]; [tauto|].
  destruct (Nat.eqb_spec c' c) as [->|Hne].
  - split; [discriminate | intros H; exfalso; apply H; now left].
  - destruct (list_remove c l); split; try discriminate; try reflexivity.
    + intros H. exfalso. destruct IH as [_ IH]. 
      assert (Hn : ~ In c l) by (intros Hin; apply H; now right).
      specialize (IH Hn). discriminate.
    + intros _ [H|H]; [congruence|]. destruct IH as [IH _]. now apply IH.
Qed.

(** *** Every answer has its message *)

Lemma answers_earlier st st' (ev : event E Args Value) :
  (forall c m, In m (pending st' c) -> In m (pending st c)) ->
  answers st' ev -> answers st ev.
Proof.
  intros Hsub. destruct ev; cbn [answers]; try exact (fun H => H).
  - intros [c Hc]. exists c. now apply Hsub.
  - intros [Hname [c Hc]]. split; [exact Hname|]. exists c. now apply Hsub.
  - intros [c [q Hc]]. exists c, q. now apply Hsub.
Qed.

Lemma remove_connection_pending st c st' :
  remove_connection st c = Ok st' -> pending st' = pending st.
Proof.
  unfold remove_connection. destruct (list_remove c (connections st));
    [intros [= <-]; reflexivity | discriminate].
Qed.

Lemma dispatch_answers processes st ready evs next :
  dispatch processes st ready = (evs, next) ->
  Forall (answers st) evs
  /\ match next with
     | Ok st' => forall c m, In m (pending st' c) -> In m (pending st c)
     | Raise (TaskError x) =>
         exists c, In (Member exception, ExceptionObject (TaskError x)) (pending st c)
     | Raise _ => True
     end.
Proof.
  unfold dispatch. destruct ready as [c|]; [|intros [= <- <-]; split; [constructor | exact I]].
  destruct (recv st c) as [|[msg_type msg] st1] eqn:Hrecv.
  { intros [= <- <-]. split; [constructor|].
    pose proof (remove_connection_not_TaskError st c) as Hr.
    pose proof (remove_connection_pending st c) as Hp.
    destruct (remove_connection st c) as [st'|[]]; try exact I.
    - intros c' m. now rewrite (Hp st' eq_refl).
    - now destruct (Hr e). }
  destruct (recv_received st c _ st1 Hrecv) as [Hhead [Hother Hconns]].
  assert (Hsub : forall c' m, In m (pending st1 c') -> In m (pending st c')).
  { intros c' m Hin. destruct (Nat.eq_dec c' c) as [->|Hne].
    - rewrite Hhead. now right.
    - now rewrite <- (Hother c' Hne). }
  destruct (tag_eqb msg_type (Member result)) eqn:Hres.
  { apply tag_eqb_eq in Hres. subst msg_type. intros [= <- <-].
    split; [|exact Hsub]. constructor; [|constructor].
    exists c. rewrite Hhead. now left. }
  destruct (tag_eqb msg_type (Str "log")) eqn:Hlog.
  { apply tag_eqb_eq in Hlog. subst msg_type.
    destruct msg; intros [= <- <-]; (split; [|try exact Hsub; exact I]);
      constructor; [|constructor].
    split; [reflexivity|]. exists c. rewrite Hhead. now left. }
  destruct (tag_eqb msg_type (Member complete)).
  { intros [= <- <-]. split; [constructor|].
    pose proof (remove_connection_not_TaskError st1 c) as Hr.
    pose proof (remove_connection_pending st1 c) as Hp.
    destruct (remove_connection st1 c) as [st'|[]]; try exact I.
    - intros c' m. rewrite (Hp st' eq_refl). apply Hsub.
    - now destruct (Hr e). }
  destruct (tag_eqb msg_type (Member exception)) eqn:Hexc.
  { apply tag_eqb_eq in Hexc. subst msg_type. intros [= <- <-]. split.
    - apply Forall_forall. intros ev Hev. apply in_map_iff in Hev as [q [<- _]].
      exists c, msg. rewrite Hhead. now left.
    - destruct msg as [|v|[]|r]; try exact I. exists c. rewrite Hhead. now left. }
  intros [= <- <-]. split; [constructor | exact Hsub].
Qed.

Lemma for_ready_answers processes ready st evs next :
  for_ready processes ready st = (evs, next) ->
  Forall (answers st) evs
  /\ match next with
     | Ok st' => forall c m, In m (pending st' c) -> In m (pending st c)
     | Raise (TaskError x) =>
         exists c, In (Member exception, ExceptionObject (TaskError x)) (pending st c)
     | Raise _ => True
     end.
Proof.
  revert st evs next. induction ready as [|r ready IH]; intros st evs next.
  - intros [= <- <-]. split; [constructor | auto].
  - cbn [for_ready]. destruct (dispatch processes st r) as [evs1 next1] eqn:Hd.
    apply dispatch_answers in Hd as [Hevs1 Hnext1]. destruct next1 as [st1|e1].
    + destruct (for_ready processes ready st1) as [evs2 next2] eqn:Hf.
      apply IH in Hf as [Hevs2 Hnext2]. intros [= <- <-]. split.
      * apply Forall_app. split; [exact Hevs1|].
        eapply Forall_impl; [|exact Hevs2]. intros ev. now apply answers_earlier.
      * destruct next2 as [st2|[| | | |x]]; try exact I.
        -- intros c m Hin. auto.
        -- destruct Hnext2 as [c Hc]. exists c. auto.
    + intros [= <- <-]. split; [exact Hevs1 | exact Hnext1].
Qed.

Lemma receive_loop_answers processes schedule st evs (final : run_end E B) :
  receive_loop processes schedule st = (evs, final) ->
  Forall (answers st) evs
  /\ forall x, final = Raised (Error (TaskError x)) ->
       exists c, In (Member exception, ExceptionObject (TaskError x)) (pending st c).
Proof.
  revert st evs final.
  induction schedule as [|ready schedule IH]; intros st evs final;
    cbn [receive_loop]; destruct (connections st);
    try (intros [= <- <-]; split; [constructor | discriminate]).
  destruct (for_ready processes ready st) as [evs1 next1] eqn:Hf.
  apply for_ready_answers in Hf as [Hevs1 Hnext1]. destruct next1 as [st1|e1].
  - destruct (receive_loop processes schedule st1) as [evs2 final2] eqn:Hr.
    apply IH in Hr as [Hevs2 Hfinal2]. intros [= <- <-]. split.
    + apply Forall_app. split; [exact Hevs1|].
      eapply Forall_impl; [|exact Hevs2]. intros ev. now apply answers_earlier.
    + intros x Hx. destruct (Hfinal2 x Hx) as [k Hk]. exists k. auto.
  - intros [= <- <-]. split; [exact Hevs1|].
    intros x [= ->]. exact Hnext1.
Qed.

End ReceiveFacts.

Section DeliveryFacts.
Context {E B Args Value : Type}.
Implicit Types (st : receiving E Value) (processes : list Process).
Implicit Types (evs : list (event E Args Value)) (c : Connection).
Implicit Types (ms : list (message E Value)) (m : message E Value).

Lemma flat_map_same {X Y : Type} (f g : X -> list Y) (l : list X) :
  (forall x, In x l -> f x = g x) -> flat_map f l = flat_map g l.
Proof.
  induction l as [|x l IH]; intros H; [reflexivity|].
  cbn [flat_map]. rewrite (H x (or_introl eq_refl)), IH; [reflexivity|].
  intros y Hy. apply H. now right.
Qed.

Lemma flat_map_middle {X Y : Type} (f : X -> list Y) (l1 l2 : list X) (x : X) :
  flat_map f (l1 ++ x :: l2) = flat_map f l1 ++ f x ++ flat_map f l2.
Proof. now rewrite flat_map_app. Qed.

Lemma NoDup_split (c : Connection) (l1 l2 : list Connection) :
  NoDup (l1 ++ c :: l2) -> ~ In c l1 /\ ~ In c l2 /\ NoDup (l1 ++ l2).
Proof.
  intros H. pose proof (NoDup_remove_1 _ _ _ H) as H1.
  pose proof (NoDup_remove_2 _ _ _ H) as H2.
  repeat split; auto; intros Hin; apply H2; apply in_or_app; auto.
Qed.

(** Taking a connection off the list when it has nothing more to deliver. *)
Lemma remove_connection_orderly st c st' :
  orderly st -> results (pending st c) = [] ->
  remove_connection st c = Ok st' ->
  orderly st' /\ remaining st' = remaining st.
Proof.
  intros [Hnodup [Hout Hend]] Hnone. unfold remove_connection.
  destruct (list_remove c (connections st)) as [l'|] eqn:Hrm; [|discriminate].
  intros [= <-]. apply list_remove_some in Hrm as [l1 [l2 [Hl [-> _]]]].
  rewrite Hl in Hnodup. destruct (NoDup_split c l1 l2 Hnodup) as [H1 [H2 Hnd]].
  split; [split; [exact Hnd | split; [|exact Hend]]|].
  - cbn [connections pending]. intros c' Hc'.
    destruct (Nat.eq_dec c' c) as [->|Hne]; [exact Hnone|].
    apply Hout. rewrite Hl. intros Hin. apply Hc'.
    apply in_app_or in Hin as [Hin|[Heq|Hin]]; [| congruence |];
      apply in_or_app; auto.
  - unfold remaining. cbn [connections pending]. rewrite Hl.
    rewrite flat_map_middle, flat_map_app, Hnone. reflexivity.
Qed.

(** Reading one message. *)
Lemma recv_orderly st c t p st' :
  orderly st -> recv st c = Received (t, p) st' ->
  orderly st'
  /\ results (pending st c)
     = (if tag_eqb t (Member result) then [p] else []) ++ results (pending st' c)
  /\ Permutation
       ((if tag_eqb t (Member result) then [p] else []) ++ remaining st')
       (remaining st)
  /\ (tag_eqb t (Member complete) = true -> results (pending st' c) = []).
Proof.
  intros [Hnodup [Hout Hend]] Hrecv.
  destruct (recv_received st c _ st' Hrecv) as [Hhead [Hother Hconns]].
  assert (Hres : results (pending st c)
                 = (if tag_eqb t (Member result) then [p] else [])
                     ++ results (pending st' c)).
  { rewrite Hhead. cbn [results]. now destruct (tag_eqb t (Member result)). }
  assert (Hsame : forall c', c' <> c ->
                    results (pending st' c') = results (pending st c')).
  { intros c' Hne. now rewrite (Hother c' Hne). }
  pose proof (Hend c) as Hc. rewrite Hhead in Hc. cbn [ends_at_complete] in Hc.
  destruct Hc as [Hcomplete Htail].
  split; [|split; [exact Hres | split; [|exact Hcomplete]]].
  - split; [now rewrite Hconns | split].
    + intros c' Hc'. rewrite Hconns in Hc'.
      destruct (Nat.eq_dec c' c) as [->|Hne].
      * specialize (Hout c Hc'). rewrite Hres in Hout.
        now apply app_eq_nil in Hout.
      * rewrite (Hsame c' Hne). now apply Hout.
    + intros c'. destruct (Nat.eq_dec c' c) as [->|Hne]; [exact Htail|].
      rewrite (Hother c' Hne). apply Hend.
  - unfold remaining. rewrite Hconns.
    destruct (in_dec Nat.eq_dec c (connections st)) as [Hin|Hnotin].
    + apply in_split in Hin as [l1 [l2 Hl]]. rewrite Hl in *.
      destruct (NoDup_split c l1 l2 Hnodup) as [H1 [H2 _]].
      rewrite !flat_map_middle, Hres.
      rewrite (flat_map_same (fun c' => results (pending st' c'))
                 (fun c' => results (pending st c')) l1)
        by (intros x Hx; apply Hsame; congruence).
      rewrite (flat_map_same (fun c' => results (pending st' c'))
                 (fun c' => results (pending st c')) l2)
        by (intros x Hx; apply Hsame; congruence).
      rewrite <- !app_assoc.
      destruct (tag_eqb t (Member result)); cbn [app]; [|reflexivity].
      apply Permutation_middle.
    + specialize (Hout c Hnotin). rewrite Hres in Hout.
      apply app_eq_nil in Hout as [Hnil _]. rewrite Hnil. cbn [app].
      rewrite (flat_map_same (fun c' => results (pending st' c'))
                 (fun c' => results (pending st c')) (connections st));
        [reflexivity|].
      intros x Hx. apply Hsame. intros ->. contradiction.
Qed.

Lemma dispatch_orderly processes st ready evs st' :
  orderly st -> dispatch processes st ready = (evs, Ok st') ->
  orderly st' /\ Permutation (finished evs ++ remaining st') (remaining st).
Proof.
  intros Hst. unfold dispatch. destruct ready as [c|]; [|discriminate].
  destruct (recv st c) as [|[msg_type msg] st1] eqn:Hrecv.
  { intros [= <- Hrm]. apply recv_eof in Hrecv.
    destruct (remove_connection_orderly st c st' Hst) as [Hst' Hrem]; auto.
    { now rewrite Hrecv. }
    split; [exact Hst'|]. cbn [finished app]. now rewrite Hrem. }
  destruct (recv_orderly st c msg_type msg st1 Hst Hrecv)
    as [Hst1 [Hres [Hperm Hcomplete]]].
  destruct (tag_eqb msg_type (Member result)) eqn:Hresult.
  { intros [= <- <-]. split; [exact Hst1 | exact Hperm]. }
  cbn [app] in Hperm.
  destruct (tag_eqb msg_type (Str "log")).
  { destruct msg; try discriminate. intros [= <- <-]. split; [exact Hst1 | exact Hperm]. }
  destruct (tag_eqb msg_type (Member complete)) eqn:Hc.
  { intros [= <- Hrm].
    destruct (remove_connection_orderly st1 c st' Hst1 (Hcomplete eq_refl) Hrm)
      as [Hst' Hrem].
    split; [exact Hst'|]. cbn [finished app]. now rewrite Hrem. }
  destruct (tag_eqb msg_type (Member exception)); [discriminate|].
  intros [= <- <-]. split; [exact Hst1 | exact Hperm].
Qed.

Lemma for_ready_orderly processes ready st evs st' :
  orderly st -> for_ready processes ready st = (evs, Ok st') ->
  orderly st' /\ Permutation (finished evs ++ remaining st') (remaining st).
Proof.
  revert st evs. induction ready as [|r ready IH]; intros st evs Hst.
  - intros [= <- <-]. split; [exact Hst | reflexivity].
  - cbn [for_ready]. destruct (dispatch processes st r) as [evs1 [st1|e1]] eqn:Hd;
      [|discriminate].
    destruct (dispatch_orderly processes st r evs1 st1 Hst Hd) as [Hst1 Hperm1].
    destruct (for_ready processes ready st1) as [evs2 next2] eqn:Hf.
    intros [= <- ->].
    destruct (IH st1 evs2 Hst1 Hf) as [Hst' Hperm2].
    split; [exact Hst'|]. rewrite finished_app, <- app_assoc.
    now rewrite Hperm2.
Qed.

(** When the loop ends, what was handed to the callback is what the open
    connections had to deliver. *)
Lemma receive_loop_delivers processes schedule st evs :
  orderly st ->
  receive_loop (B:=B) processes schedule st = (evs, Returned) ->
  Permutation (finished evs) (remaining st).
Proof.
  revert st evs. induction schedule as [|ready schedule IH]; intros st evs Hst;
    cbn [receive_loop]; unfold remaining;
    destruct (connections st) as [|c0 cs] eqn:Hconns;
    try (intros [= <-]; reflexivity); try discriminate.
  destruct (for_ready processes ready st) as [evs1 [st1|e1]] eqn:Hf; [|discriminate].
  destruct (for_ready_orderly processes ready st evs1 st1 Hst Hf) as [Hst1 Hperm1].
  destruct (receive_loop processes schedule st1) as [evs2 final2] eqn:Hr.
  intros [= <- ->]. rewrite finished_app, (IH st1 evs2 Hst1 Hr).
  unfold remaining in Hperm1. now rewrite Hconns in Hperm1.
Qed.

End DeliveryFacts.

Section ChannelFacts.
Context {E B Args Value : Type}.
Variable task : Args -> list LogRecord * outcome E B Value.
Variable user_init : list LogRecord * option (thrown E B).
Variables (has_SIGBUS : bool) (root_level : Z).

Implicit Types (evs : list (event E Args Value)) (c conn : Connection).
Implicit Types (ms : list (message E Value)) (m : message E Value).
Implicit Types (group l : list (object Args)).

Lemma task_message_more group a m :
  task_message task group m -> task_message task (a :: group) m.
Proof. intros [a' [Hin H]]. exists a'. split; [now right | exact H]. Qed.

Lemma in_sent_enqueue conn records m :
  In m (sent (map (enqueue (E:=E) (Args:=Args) (Value:=Value) conn) records)) ->
  exists r, In r records /\ m = (Str "log", RecordObject r).
Proof.
  rewrite sent_enqueue. intros Hin. apply in_map_iff in Hin as [r [<- Hr]].
  now exists r.
Qed.

(** Every message of the loop is accounted for by a call of the task. *)
Lemma task_loop_sent conn group m :
  In m (sent (fst (task_loop task conn group))) -> task_message task group m.
Proof.
  induction group as [|a group IH]; [intros []|].
  assert (Hlog : forall records,
             fst (call task a) = records ->
             In m (sent (map (enqueue (E:=E) (Args:=Args) (Value:=Value) conn) records)) ->
             task_message task (a :: group) m).
  { intros records Hrec Hin. apply in_sent_enqueue in Hin as [r [Hr ->]].
    exists a. split; [now left|]. right. right. exists r. now rewrite Hrec. }
  destruct (call task a) as [records [v|e|b]] eqn:Hcall.
  - rewrite (task_loop_returns task conn a group records v Hcall). cbn [fst sent].
    rewrite sent_app. cbn [sent]. intros Hin.
    apply in_app_or in Hin as [Hin|[<-|Hin]].
    + now apply (Hlog records).
    + exists a. split; [now left|]. left. exists v. now rewrite Hcall.
    + apply task_message_more. now apply IH.
  - rewrite (task_loop_raises task conn a group records e Hcall). cbn [fst sent].
    rewrite sent_app. cbn [sent]. intros Hin.
    apply in_app_or in Hin as [Hin|[<-|[]]].
    + now apply (Hlog records).
    + exists a. split; [now left|]. right. left. exists e. now rewrite Hcall.
  - rewrite (task_loop_propagates task conn a group records b Hcall). cbn [fst sent].
    now apply (Hlog records).
Qed.

Lemma run_tasks_sent conn group :
  exists tail,
    sent (fst (run_tasks task conn group))
    = sent (fst (task_loop task conn group)) ++ tail
    /\ (tail = [] \/ tail = [(Member complete, NoneObject)]).
Proof.
  unfold run_tasks. destruct (task_loop task conn group) as [evs how].
  destruct how; cbn [fst].
  - exists [(Member complete, NoneObject)]. rewrite sent_app. auto.
  - exists [(Member complete, NoneObject)]. rewrite sent_app. auto.
  - exists []. rewrite app_nil_r. auto.
Qed.

(** What a worker puts on its channel: the records of the initializer, then
    the messages of the loop, then [complete] unless the process died. *)
Lemma process_loop_sent conn loglevel group :
  exists tail,
    sent (fst (process_loop task user_init has_SIGBUS conn loglevel group))
    = sent (map (enqueue (Args:=Args) conn) (fst user_init))
        ++ (match snd user_init with
            | None => sent (fst (task_loop task conn group))
            | Some _ => []
            end)
        ++ tail
    /\ (tail = [] \/ snd user_init = None /\ tail = [(Member complete, NoneObject)]).
Proof.
  destruct (snd user_init) as [t|] eqn:Hinit.
  - exists []. rewrite (sent_process_loop_failed task user_init has_SIGBUS conn
                        loglevel group t Hinit). cbn [fst].
    destruct (sent_setup (E:=E) (Args:=Args) (Value:=Value) has_SIGBUS conn loglevel)
      as [Hsent _].
    rewrite sent_app, Hsent. cbn [app sent]. rewrite !app_nil_r. auto.
  - destruct (sent_process_loop task user_init has_SIGBUS conn loglevel group Hinit)
      as [-> _].
    destruct (run_tasks_sent conn group) as [tail [-> Htail]].
    exists tail. split; [reflexivity|]. destruct Htail; auto.
Qed.

Lemma process_loop_message conn loglevel group m :
  In m (sent (fst (process_loop task user_init has_SIGBUS conn loglevel group))) ->
  (exists r, In r (fst user_init) /\ m = (Str "log", RecordObject r))
  \/ (snd user_init = None /\ task_message task group m)
  \/ (snd user_init = None /\ m = (Member complete, NoneObject)).
Proof.
  destruct (process_loop_sent conn loglevel group) as [tail [-> Htail]].
  intros Hin. apply in_app_or in Hin as [Hin|Hin].
  { left. now apply in_sent_enqueue in Hin. }
  apply in_app_or in Hin as [Hin|Hin].
  - destruct (snd user_init); [destruct Hin|].
    right. left. split; [reflexivity|]. now apply task_loop_sent in Hin.
  - destruct Htail as [->|[Hinit ->]]; [destruct Hin|].
    destruct Hin as [<-|[]]. auto.
Qed.

Lemma results_none ms :
  (forall m, In m ms -> tag_eqb (fst m) (Member result) = false) ->
  results ms = [].
Proof.
  induction ms as [|[t p] ms IH]; intros H; [reflexivity|].
  cbn [results]. pose proof (H (t, p) (or_introl eq_refl)) as Ht.
  cbn [fst] in Ht. rewrite Ht. apply IH. intros m Hm. apply H. now right.
Qed.

Lemma ends_at_complete_app ms tail :
  filter (has_tag (Member complete)) ms = [] ->
  ends_at_complete tail -> ends_at_complete (ms ++ tail).
Proof.
  induction ms as [|[t p] ms IH]; intros Hnone Htail; [exact Htail|].
  cbn [filter] in Hnone. unfold has_tag at 1 in Hnone. cbn [fst] in Hnone.
  cbn [app ends_at_complete].
  destruct (tag_eqb t (Member complete)); [discriminate Hnone|].
  split; [discriminate | now apply IH].
Qed.

Lemma process_loop_ends_at_complete conn loglevel group :
  ends_at_complete
    (sent (fst (process_loop task user_init has_SIGBUS conn loglevel group))).
Proof.
  destruct (process_loop_sent conn loglevel group) as [tail [-> Htail]].
  apply ends_at_complete_app.
  { rewrite sent_enqueue. clear. induction (fst user_init); [reflexivity | assumption]. }
  apply ends_at_complete_app.
  { destruct (snd user_init); [reflexivity | apply task_loop_no_complete]. }
  destruct Htail as [->|[_ ->]]; cbn; auto.
Qed.

End ChannelFacts.

Section ExecuteFacts.
Context {E B Args Value : Type}.
Variable task : Args -> list LogRecord * outcome E B Value.
Variable user_init : list LogRecord * option (thrown E B).
Variables (has_SIGBUS : bool) (root_level : Z).

Implicit Types (evs trace : list (event E Args Value)) (c : Connection).
Implicit Types (l group : list (object Args)).
Implicit Types (grouped : list (list (object Args))).

Lemma grouped_args_ok (W : Z) l grouped :
  grouped_args (E:=E) W l = Ok grouped ->
  (0 <= W)%Z
  /\ map worker_args grouped
     = fold_right cons_column [] (take_chunks (S (length l)) (Z.to_nat W) l).
Proof.
  unfold grouped_args, split_every.
  destruct (Z.ltb_spec W 0) as [|HW]; [discriminate|]. intros [= <-].
  split; [exact HW | apply groups_of_fold].
Qed.

Lemma groups_length (W : Z) l grouped :
  (1 <= W)%Z -> grouped_args (E:=E) W l = Ok grouped ->
  length grouped = Nat.min (Z.to_nat W) (length l).
Proof.
  intros HW Hg. apply grouped_args_ok in Hg as [_ Hg].
  rewrite <- (length_map worker_args), Hg. apply round_robin_length; lia.
Qed.

Lemma groups_concat (W : Z) l grouped :
  (1 <= W)%Z -> grouped_args (E:=E) W l = Ok grouped ->
  Permutation (concat (map worker_args grouped)) (filter is_not_None l).
Proof.
  intros HW Hg. apply grouped_args_ok in Hg as [_ ->].
  rewrite fold_cons_column_concat, take_chunks_concat by lia. reflexivity.
Qed.

(** A worker is handed nothing but elements of the input that are not
    [None]. *)
Lemma group_in_input (W : Z) l grouped c a :
  grouped_args (E:=E) W l = Ok grouped ->
  In a (worker_args (nth c grouped [])) ->
  In a l /\ is_not_None a = true.
Proof.
  intros Hg Hin.
  assert (Hnn : is_not_None a = true)
    by exact (proj2 (proj1 (filter_In _ _ _) Hin)).
  split; [|exact Hnn].
  destruct (Nat.lt_ge_cases c (length grouped)) as [Hc|Hc].
  2:{ rewrite nth_overflow in Hin by exact Hc. destruct Hin. }
  assert (Hall : In a (concat (map worker_args grouped))).
  { apply in_concat. exists (worker_args (nth c grouped [])).
    split; [apply in_map; now apply nth_In | exact Hin]. }
  pose proof (grouped_args_ok W l grouped Hg) as [HW Hfold].
  destruct (Z.eq_dec W 0) as [->|Hne].
  - rewrite Hfold in Hall. cbn [Z.to_nat] in Hall. rewrite chunks_zero in Hall.
    destruct Hall.
  - rewrite (groups_concat W l grouped) in Hall by (auto; lia).
    exact (proj1 (proj1 (filter_In _ _ _) Hall)).
Qed.

Lemma flat_map_nth_seq {X Y : Type} (F : X -> list Y) (d : X) (xs : list X) :
  flat_map (fun i => F (nth i xs d)) (seq 0 (length xs)) = flat_map F xs.
Proof.
  induction xs as [|x xs IH]; [reflexivity|].
  cbn [length seq flat_map nth]. f_equal.
  rewrite <- seq_shift, flat_map_concat_map, map_map, <- flat_map_concat_map.
  exact IH.
Qed.

(** *** What the events of a run are *)

Lemma create_workers_spawns p grouped (ev : event E Args Value) :
  In ev (create_workers root_level p grouped) -> spawns ev = true.
Proof.
  revert p. induction grouped as [|chunk rest IH]; intros p; [intros []|].
  cbn [create_workers]. intros [<-|[<-|Hin]]; try reflexivity. now apply (IH (S p)).
Qed.

Lemma dispatch_spawns_nothing processes (st : receiving E Value) ready evs next :
  dispatch processes st ready = (evs, next) ->
  Forall (fun ev => spawns ev = false) evs.
Proof.
  unfold dispatch. destruct ready as [c|]; [|intros [= <- _]; constructor].
  destruct (recv st c) as [|[msg_type msg] st1]; [intros [= <- _]; constructor|].
  destruct (tag_eqb msg_type (Member result)); [intros [= <- _]; repeat constructor|].
  destruct (tag_eqb msg_type (Str "log")).
  { destruct msg; intros [= <- _]; repeat constructor. }
  destruct (tag_eqb msg_type (Member complete)); [intros [= <- _]; constructor|].
  destruct (tag_eqb msg_type (Member exception)); intros [= <- _]; [|constructor].
  apply Forall_forall. intros ev Hev. apply in_map_iff in Hev as [q [<- _]].
  reflexivity.
Qed.

Lemma for_ready_spawns_nothing processes ready (st : receiving E Value) evs next :
  for_ready processes ready st = (evs, next) ->
  Forall (fun ev => spawns ev = false) evs.
Proof.
  revert st evs next. induction ready as [|r ready IH]; intros st evs next.
  - intros [= <- _]. constructor.
  - cbn [for_ready]. destruct (dispatch processes st r) as [evs1 next1] eqn:Hd.
    apply dispatch_spawns_nothing in Hd. destruct next1 as [st1|e1].
    + destruct (for_ready processes ready st1) as [evs2 next2] eqn:Hf.
      apply IH in Hf. intros [= <- _]. apply Forall_app. now split.
    + now intros [= <- _].
Qed.

Lemma receive_loop_spawns_nothing processes schedule (st : receiving E Value)
  evs (final : run_end E B) :
  receive_loop processes schedule st = (evs, final) ->
  Forall (fun ev => spawns ev = false) evs.
Proof.
  revert st evs final.
  induction schedule as [|ready schedule IH]; intros st evs final;
    cbn [receive_loop]; destruct (connections st);
    try (intros [= <- _]; constructor).
  destruct (for_ready processes ready st) as [evs1 next1] eqn:Hf.
  apply for_ready_spawns_nothing in Hf. destruct next1 as [st1|e1].
  - destruct (receive_loop processes schedule st1) as [evs2 final2] eqn:Hr.
    apply IH in Hr. intros [= <- _]. apply Forall_app. now split.
  - now intros [= <- _].
Qed.

(** The shape of a run of the multi-process branch that has a group. *)
Lemma execute_trace use_threads (W : Z) l schedule grouped :
  use_threads && (W =? 1)%Z = false ->
  grouped_args (E:=E) W l = Ok grouped -> grouped <> [] ->
  let processes := seq 0 (length grouped) in
  let st := {| connections := processes;
               pending := channel task user_init has_SIGBUS root_level grouped |} in
  let run := _execute task user_init has_SIGBUS root_level use_threads W l schedule in
  exists closing,
    fst run = create_workers root_level 0 grouped ++ map Started processes
                ++ ProgressEntered :: fst (receive_loop (B:=B) processes schedule st)
                ++ closing
    /\ snd run = snd (receive_loop (Args:=Args) processes schedule st)
    /\ (closing = [] \/ closing = [ProgressExited]
        \/ closing = ProgressExited :: map Joined processes).
Proof.
  intros Hmode Hg Hne. cbv zeta. unfold _execute. rewrite Hmode, Hg.
  destruct grouped as [|chunk grouped]; [congruence|].
  set (groups := chunk :: grouped) in *.
  destruct (receive_loop _ schedule _) as [evs final].
  destruct final as [|t|]; cbn [fst snd].
  - exists (ProgressExited :: map Joined (seq 0 (length groups))).
    split; [now rewrite <- app_assoc | auto].
  - exists [ProgressExited]. split; [now rewrite <- app_assoc | auto].
  - exists []. split; [now rewrite <- app_assoc, app_nil_r | auto].
Qed.

Lemma initial_state_orderly (W : Z) l grouped :
  grouped_args (E:=E) W l = Ok grouped ->
  orderly {| connections := seq 0 (length grouped);
             pending := channel task user_init has_SIGBUS root_level grouped |}.
Proof.
  intros Hg. split; [apply seq_NoDup | split]; cbn [connections pending].
  - intros c Hc. unfold channel.
    assert (Hout : length grouped <= c).
    { destruct (Nat.lt_ge_cases c (length grouped)) as [Hlt|]; [|assumption].
      exfalso. apply Hc. apply in_seq. lia. }
    rewrite (nth_overflow _ _ Hout). apply results_none. intros m Hm.
    apply process_loop_message in Hm as [[r [_ ->]]|[[_ [a [[] _]]]|[_ ->]]];
      reflexivity.
  - intros c. apply process_loop_ends_at_complete.
Qed.

End ExecuteFacts.

Section RunProvenance.
Context {E B Args Value : Type}.
Variable task : Args -> list LogRecord * outcome E B Value.
Variable user_init : list LogRecord * option (thrown E B).
Variables (has_SIGBUS : bool) (root_level : Z).

Implicit Types (evs trace : list (event E Args Value)) (c : Connection).
Implicit Types (l group : list (object Args)) (m : message E Value).
Implicit Types (grouped : list (list (object Args))).

Lemma finished_create_workers p grouped :
  finished (create_workers (E:=E) (Value:=Value) root_level p grouped) = [].
Proof. revert p. induction grouped as [|g gs IH]; intros p; [reflexivity | apply IH]. Qed.

Lemma finished_started (ps : list Process) :
  finished (map (Started (E:=E) (Args:=Args) (Value:=Value)) ps) = [].
Proof. induction ps; [reflexivity | assumption]. Qed.

Lemma finished_joined (ps : list Process) :
  finished (map (Joined (E:=E) (Args:=Args) (Value:=Value)) ps) = [].
Proof. induction ps; [reflexivity | assumption]. Qed.

(** What is on a channel, in terms of the input of the run. *)
Lemma channel_message (W : Z) l grouped c m :
  grouped_args (E:=E) W l = Ok grouped ->
  In m (channel task user_init has_SIGBUS root_level grouped c) ->
  (exists r, In r (fst user_init) /\ m = (Str "log", RecordObject r))
  \/ (snd user_init = None /\ task_message task l m)
  \/ (snd user_init = None /\ m = (Member complete, NoneObject)).
Proof.
  intros Hg Hin. unfold channel in Hin.
  apply process_loop_message in Hin as [H|[[Hinit [a [Ha H]]]|H]]; auto.
  right. left. split; [exact Hinit|]. exists a. split; [|exact H].
  now apply (group_in_input W l grouped c a Hg).
Qed.

(** An event of a run that answers a message answers a message of one of the
    channels of the run. *)
Lemma execute_answers use_threads (W : Z) l schedule ev :
  use_threads && (W =? 1)%Z = false ->
  In ev (fst (_execute task user_init has_SIGBUS root_level use_threads W l schedule)) ->
  spawns ev = true \/ ev = ProgressEntered \/ ev = ProgressExited
  \/ (exists p, ev = Joined p)
  \/ exists grouped,
       grouped_args (E:=E) W l = Ok grouped
       /\ answers {| connections := seq 0 (length grouped);
                     pending := channel task user_init has_SIGBUS root_level grouped |}
            ev.
Proof.
  intros Hmode.
  destruct (grouped_args (E:=E) W l) as [grouped|e] eqn:Hg.
  2:{ unfold _execute. rewrite Hmode, Hg. intros []. }
  destruct grouped as [|chunk grouped].
  { unfold _execute. rewrite Hmode, Hg. intros []. }
  destruct (execute_trace task user_init has_SIGBUS root_level use_threads W l
              schedule (chunk :: grouped) Hmode Hg) as [closing [-> [_ Hclosing]]];
    [discriminate|].
  intros Hin. apply in_app_or in Hin as [Hin|Hin].
  { left. now apply create_workers_spawns in Hin. }
  apply in_app_or in Hin as [Hin|[<-|Hin]]; auto.
  { left. apply in_map_iff in Hin as [p [<- _]]. reflexivity. }
  apply in_app_or in Hin as [Hin|Hin].
  - right. right. right. right. exists (chunk :: grouped). split; [reflexivity|].
    destruct (receive_loop _ schedule _) as [evs final] eqn:Hloop.
    apply receive_loop_answers in Hloop as [Hevs _]. cbn [fst] in Hin.
    now apply (proj1 (Forall_forall _ _) Hevs).
  - destruct Hclosing as [-> | [-> | ->]]; [destruct Hin | |].
    + destruct Hin as [<-|[]]. auto.
    + destruct Hin as [<-|Hin]; auto.
      right. right. right. left. apply in_map_iff in Hin as [p [<- _]]. now exists p.
Qed.

Lemma run_directly_provenance l :
  (forall p, In (TaskFinished p) (fst (run_directly task l)) ->
             exists a v, In a l /\ snd (call task a) = Returns v
                         /\ p = ResultObject v)
  /\ (forall logger r, ~ In (LogHandled logger r) (fst (run_directly task l)))
  /\ (forall t, snd (run_directly task l) = Raised t ->
                exists a, In a l /\ escapes (snd (call task a)) = Some t).
Proof.
  induction l as [|a l [IHp [IHr IHt]]].
  { split; [intros p [] | split; [intros logger r [] | discriminate]]. }
  cbn [run_directly]. destruct (snd (call task a)) as [v|e|b] eqn:Hcall.
  - destruct (run_directly task l) as [evs final]. cbn [fst snd] in *.
    split; [|split].
    + intros p [H|[H|H]]; [discriminate H | |].
      * injection H as <-. exists a, v. repeat split; [now left | exact Hcall].
      * destruct (IHp p H) as [a' [v' [Ha' H']]]. exists a', v'.
        split; [now right | exact H'].
    + intros logger r [H|[H|H]]; [discriminate H | discriminate H |].
      now apply (IHr logger r).
    + intros t Ht. destruct (IHt t Ht) as [a' [Ha' H']]. exists a'.
      split; [now right | exact H'].
  - cbn [fst snd]. split; [|split].
    + intros p [H|[]]. discriminate H.
    + intros logger r [H|[]]. discriminate H.
    + intros t [= <-]. exists a. rewrite Hcall. split; [now left | reflexivity].
  - cbn [fst snd]. split; [|split].
    + intros p [H|[]]. discriminate H.
    + intros logger r [H|[]]. discriminate H.
    + intros t [= <-]. exists a. rewrite Hcall. split; [now left | reflexivity].
Qed.

End RunProvenance.

Section RunResults.
Context {E B Args Value : Type}.
Variable task : Args -> list LogRecord * outcome E B Value.
Variable user_init : list LogRecord * option (thrown E B).
Variables (has_SIGBUS : bool) (root_level : Z).

Implicit Types (evs trace : list (event E Args Value)) (c : Connection).
Implicit Types (l group : list (object Args)) (m : message E Value).
Implicit Types (grouped : list (list (object Args))).

Lemma returns_on_tuple (o : object Args) v :
  snd (call task o) = Returns v -> exists a, o = PyArgs a /\ snd (task a) = Returns v.
Proof. destruct o as [|a]; [discriminate|]. intros H. now exists a. Qed.

Lemma raises_on_tuple (o : object Args) x :
  snd (call task o) = RaisesException (TaskError x) ->
  exists a, o = PyArgs a /\ snd (task a) = RaisesException (TaskError x).
Proof. destruct o as [|a]; [discriminate|]. intros H. now exists a. Qed.

Lemma logs_on_tuple (o : object Args) r :
  In r (fst (call task o)) -> exists a, o = PyArgs a /\ In r (fst (task a)).
Proof. destruct o as [|a]; [intros []|]. intros H. now exists a. Qed.

Lemma execute_single use_threads (W : Z) l schedule :
  use_threads && (W =? 1)%Z = true ->
  _execute task user_init has_SIGBUS root_level use_threads W l schedule
  = (ProgressEntered :: fst (run_directly task l) ++ [ProgressExited],
     snd (run_directly task l)).
Proof.
  intros Hmode. unfold _execute. rewrite Hmode.
  now destruct (run_directly task l).
Qed.

Lemma Forall2_values (value : object Args -> Value) group :
  (forall a, In a group -> snd (call task a) = Returns (value a)) ->
  Forall2 (fun a v => snd (call task a) = Returns v) group (map value group).
Proof.
  induction group as [|a group IH]; intros H; [constructor|].
  cbn [map]. constructor; [apply H; now left|]. apply IH. intros a' Ha'. apply H. now right.
Qed.

Lemma channel_results (value : object Args -> Value) (W : Z) l grouped c :
  snd user_init = None ->
  (forall a, In a l -> is_not_None a = true -> snd (call task a) = Returns (value a)) ->
  grouped_args (E:=E) W l = Ok grouped ->
  results (channel task user_init has_SIGBUS root_level grouped c)
  = map (fun a => ResultObject (value a)) (worker_args (nth c grouped [])).
Proof.
  intros Hinit Hvalue Hg. unfold channel.
  destruct (sent_process_loop task user_init has_SIGBUS c root_level
              (worker_args (nth c grouped [])) Hinit) as [-> _].
  rewrite results_app, sent_enqueue, results_logs. cbn [app].
  destruct (run_tasks_all_return task c (worker_args (nth c grouped []))
              (map value (worker_args (nth c grouped [])))) as [_ [_ [_ ->]]].
  - apply Forall2_values. intros a Ha.
    destruct (group_in_input W l grouped c a Hg Ha) as [Hin Hnn]. now apply Hvalue.
  - now rewrite map_map.
Qed.

Lemma flat_map_map_concat {X Y Z' : Type} (h : X -> list Y) (g : Y -> Z')
  (xs : list X) :
  flat_map (fun x => map g (h x)) xs = map g (concat (map h xs)).
Proof.
  induction xs as [|x xs IH]; [reflexivity|].
  cbn [flat_map map concat]. now rewrite map_app, IH.
Qed.



End RunResults.

(** X6: a multi-process run on a non-empty input with [W >= 1] creates
    [min W T] workers, never more workers than tasks: the run starts with a
    pipe and a process per group, then starts every process, then enters the
    progress sink, and creates or starts nothing after that, whatever [wait]
    returns; when no element of the input is [None], no worker is created
    with an empty group. *)
Theorem workers_created_before_receiving {E B Args Value : Type}
  (task : Args -> list LogRecord * outcome E B Value)
  (user_init : list LogRecord * option (thrown E B))
  (has_SIGBUS : bool) (root_level : Z) (use_threads : bool) (max_workers : Z)
  (task_arguments : list (object Args)) (schedule : list (list ready_object)) :
  (1 <= max_workers)%Z -> task_arguments <> [] ->
  use_threads && (max_workers =? 1)%Z = false ->
  exists grouped rest,
    grouped_args (E:=E) max_workers task_arguments = Ok grouped
    /\ length grouped = Nat.min (Z.to_nat max_workers) (length task_arguments)
    /\ fst (_execute task user_init has_SIGBUS root_level use_threads max_workers
              task_arguments schedule)
       = create_workers root_level 0 grouped
           ++ map Started (seq 0 (length grouped))
           ++ ProgressEntered :: rest
    /\ Forall (fun ev => spawns ev = false) rest
    /\ (~ In PyNone task_arguments ->
        forall i, i < length grouped -> worker_args (nth i grouped []) <> []).
Proof.
  intros HW Hne Hmode.
  destruct (grouped_args (E:=E) max_workers task_arguments) as [grouped|e] eqn:Hg.
  2:{ unfold grouped_args, split_every in Hg.
      destruct (Z.ltb_spec max_workers 0); [lia | discriminate]. }
  pose proof (groups_length max_workers task_arguments grouped HW Hg) as Hlen.
  assert (Hgrouped : grouped <> []).
  { intros ->. destruct task_arguments; [congruence|]. cbn [length] in Hlen. lia. }
  destruct (execute_trace task user_init has_SIGBUS root_level use_threads
              max_workers task_arguments schedule grouped Hmode Hg Hgrouped)
    as [closing [Htrace [_ Hclosing]]].
  eexists grouped, _. split; [reflexivity|]. split; [exact Hlen|].
  split; [exact Htrace|]. split.
  - apply Forall_app. split.
    + destruct (receive_loop _ schedule _) as [evs final] eqn:Hloop.
      now apply receive_loop_spawns_nothing in Hloop.
    + destruct Hclosing as [-> | [-> | ->]]; repeat constructor.
      apply Forall_forall. intros ev Hev. apply in_map_iff in Hev as [p [<- _]].
      reflexivity.
  - intros Hnone i Hi Hempty.
    pose proof (grouped_args_ok max_workers task_arguments grouped Hg) as [_ Hfold].
    pose proof (round_robin_index (S (length task_arguments)) (Z.to_nat max_workers)
                  task_arguments i 0) as Hidx.
    rewrite <- Hfold in Hidx.
    rewrite <- (map_nth worker_args) in Hempty. cbn [worker_args filter] in Hempty.
    change (filter is_not_None (@nil (object Args))) with (@nil (object Args)) in Hidx.
    rewrite Hempty, Nat.add_0_r in Hidx. cbn [nth_error] in Hidx.
    assert (Hsome : nth_error task_arguments i <> None)
      by (apply nth_error_Some; lia).
    apply Hsome. symmetry. apply Hidx; auto; lia.
Qed.

Lemma workers_created_before_receiving_witness :
  exists grouped rest,
    grouped_args (E:=string) 5 (map PyArgs [1; 2]) = Ok grouped
    /\ length grouped = 2
    /\ fst (demo_execute false 5 (map PyArgs [1; 2]) demo_schedule)
       = create_workers 20 0 grouped
           ++ map Started (seq 0 (length grouped))
           ++ ProgressEntered :: rest
    /\ Forall (fun ev => spawns ev = false) rest
    /\ (~ In PyNone (map PyArgs [1; 2]) ->
        forall i, i < length grouped -> worker_args (nth i grouped []) <> []).
Proof.
  apply (workers_created_before_receiving demo_task demo_init true 20 false 5
           (map PyArgs [1; 2]) demo_schedule); [lia | discriminate | reflexivity].
Defined.

(** X7: in every run, of either branch and whatever [wait] returns, the
    result callback is only ever called with a value that the task returned
    on one of the argument tuples of the input. *)
Theorem callbacks_are_task_results {E B Args Value : Type}
  (task : Args -> list LogRecord * outcome E B Value)
  (user_init : list LogRecord * option (thrown E B))
  (has_SIGBUS : bool) (root_level : Z) (use_threads : bool) (max_workers : Z)
  (task_arguments : list (object Args)) (schedule : list (list ready_object))
  (msg : payload E Value) :
  In (TaskFinished msg)
    (fst (_execute task user_init has_SIGBUS root_level use_threads max_workers
            task_arguments schedule)) ->
  exists a v,
    In (PyArgs a) task_arguments /\ snd (task a) = Returns v
    /\ msg = ResultObject v.
Proof.
  intros Hin.
  assert (Hobj : exists o v, In o task_arguments /\ snd (call task o) = Returns v
                             /\ msg = ResultObject v).
  { destruct (use_threads && (max_workers =? 1)%Z) eqn:Hmode.
    - rewrite (execute_single task user_init has_SIGBUS root_level use_threads
                 max_workers task_arguments schedule Hmode) in Hin.
      cbn [fst] in Hin. destruct Hin as [H|Hin]; [discriminate H|].
      apply in_app_or in Hin as [Hin|[H|[]]]; [|discriminate H].
      now apply (proj1 (run_directly_provenance task task_arguments)).
    - apply (execute_answers task user_init has_SIGBUS root_level use_threads
               max_workers task_arguments schedule _ Hmode) in Hin
        as [H|[H|[H|[[p H]|[grouped [Hg [c Hc]]]]]]]; try discriminate H.
      apply (channel_message task user_init has_SIGBUS root_level max_workers
               task_arguments grouped c _ Hg) in Hc
        as [[r [_ H]]|[[_ [o [Ho H]]]|[_ H]]]; try discriminate H.
      destruct H as [[v [Hv H]]|[[e [_ H]]|[r [_ H]]]]; try discriminate H.
      injection H as ->. now exists o, v. }
  destruct Hobj as [o [v [Ho [Hv ->]]]].
  apply returns_on_tuple in Hv as [a [-> Ha]]. now exists a, v.
Qed.

Lemma callbacks_are_task_results_witness :
  exists a v,
    In (PyArgs a) (map PyArgs [1; 2; 3; 4]) /\ snd (demo_task a) = Returns v
    /\ ResultObject (E:=string) 4 = ResultObject v.
Proof.
  apply (callbacks_are_task_results demo_task demo_init true 20 false 2
           (map PyArgs [1; 2; 3; 4]) demo_schedule (ResultObject 4)).
  vm_compute. tauto.
Defined.

(** X8: when [_execute] raises an error of the task's own, the task raised
    that error on one of the argument tuples of the input. *)
Theorem raised_task_error_was_raised_by_task {E B Args Value : Type}
  (task : Args -> list LogRecord * outcome E B Value)
  (user_init : list LogRecord * option (thrown E B))
  (has_SIGBUS : bool) (root_level : Z) (use_threads : bool) (max_workers : Z)
  (task_arguments : list (object Args)) (schedule : list (list ready_object))
  (x : E) :
  snd (_execute task user_init has_SIGBUS root_level use_threads max_workers
         task_arguments schedule) = Raised (Error (TaskError x)) ->
  exists a,
    In (PyArgs a) task_arguments
    /\ snd (task a) = RaisesException (TaskError x).
Proof.
  intros Hraised.
  assert (Hobj : exists o, In o task_arguments
                           /\ snd (call task o) = RaisesException (TaskError x)).
  { destruct (use_threads && (max_workers =? 1)%Z) eqn:Hmode.
    - rewrite (execute_single task user_init has_SIGBUS root_level use_threads
                 max_workers task_arguments schedule Hmode) in Hraised.
      cbn [snd] in Hraised.
      apply (proj2 (proj2 (run_directly_provenance task task_arguments))) in Hraised
        as [o [Ho Hesc]].
      exists o. split; [exact Ho|].
      destruct (snd (call task o)); cbn [escapes] in Hesc; congruence.
    - destruct (grouped_args (E:=E) max_workers task_arguments) as [grouped|e] eqn:Hg.
      2:{ unfold _execute in Hraised. rewrite Hmode, Hg in Hraised. cbn [snd] in Hraised.
          apply grouped_args_raises in Hg. subst e. discriminate Hraised. }
      destruct grouped as [|chunk grouped].
      { unfold _execute in Hraised. rewrite Hmode, Hg in Hraised. discriminate Hraised. }
      destruct (execute_trace task user_init has_SIGBUS root_level use_threads
                  max_workers task_arguments schedule (chunk :: grouped) Hmode Hg)
        as [closing [_ [Hsnd _]]]; [discriminate|].
      rewrite Hsnd in Hraised.
      destruct (receive_loop _ schedule _) as [evs final] eqn:Hloop.
      apply receive_loop_answers in Hloop as [_ Hfinal]. cbn [snd] in Hraised.
      destruct (Hfinal x Hraised) as [c Hc]. cbn [pending] in Hc.
      apply (channel_message task user_init has_SIGBUS root_level max_workers
               task_arguments (chunk :: grouped) c _ Hg) in Hc
        as [[r [_ H]]|[[_ [o [Ho H]]]|[_ H]]]; try discriminate H.
      destruct H as [[v [_ H]]|[[e [He H]]|[r [_ H]]]]; try discriminate H.
      injection H as <-. now exists o. }
  destruct Hobj as [o [Ho Hraise]].
  apply raises_on_tuple in Hraise as [a [-> Ha]]. now exists a.
Qed.

Lemma raised_task_error_was_raised_by_task_witness :
  exists a,
    In (PyArgs a) (map PyArgs [1; 2; 3; 4])
    /\ snd (demo_task a) = RaisesException (TaskError "boom"%string).
Proof.
  apply (raised_task_error_was_raised_by_task demo_task demo_init true 20 false 2
           (map PyArgs [1; 2; 3; 4]) demo_schedule "boom"%string).
  reflexivity.
Defined.

(** X9: every record the coordinator hands to a logger is handed to the
    logger named by the record, and was emitted by the initializer or by the
    task on one of the argument tuples of the input. *)
Theorem handled_records_were_logged {E B Args Value : Type}
  (task : Args -> list LogRecord * outcome E B Value)
  (user_init : list LogRecord * option (thrown E B))
  (has_SIGBUS : bool) (root_level : Z) (use_threads : bool) (max_workers : Z)
  (task_arguments : list (object Args)) (schedule : list (list ready_object))
  (logger : string) (record : LogRecord) :
  In (LogHandled logger record)
    (fst (_execute task user_init has_SIGBUS root_level use_threads max_workers
            task_arguments schedule)) ->
  logger = record_name record
  /\ (In record (fst user_init)
      \/ exists a, In (PyArgs a) task_arguments /\ In record (fst (task a))).
Proof.
  intros Hin.
  destruct (use_threads && (max_workers =? 1)%Z) eqn:Hmode.
  - rewrite (execute_single task user_init has_SIGBUS root_level use_threads
               max_workers task_arguments schedule Hmode) in Hin.
    cbn [fst] in Hin. destruct Hin as [H|Hin]; [discriminate H|].
    apply in_app_or in Hin as [Hin|[H|[]]]; [|discriminate H].
    now apply (proj1 (proj2 (run_directly_provenance task task_arguments))) in Hin.
  - apply (execute_answers task user_init has_SIGBUS root_level use_threads
             max_workers task_arguments schedule _ Hmode) in Hin
      as [H|[H|[H|[[p H]|[grouped [Hg [Hname [c Hc]]]]]]]]; try discriminate H.
    split; [exact Hname|].
    apply (channel_message task user_init has_SIGBUS root_level max_workers
             task_arguments grouped c _ Hg) in Hc
      as [[r [Hr H]]|[[_ [o [Ho H]]]|[_ H]]]; try discriminate H.
    + injection H as <-. now left.
    + destruct H as [[v [_ H]]|[[e [_ H]]|[r [Hr H]]]]; try discriminate H.
      injection H as <-. right.
      apply logs_on_tuple in Hr as [a [-> Ha]]. now exists a.
Qed.

Lemma handled_records_were_logged_witness :
  "x.y"%string = record_name warning
  /\ (In warning (fst demo_init)
      \/ exists a, In (PyArgs a) (map PyArgs [1; 2; 3; 4])
                   /\ In warning (fst (demo_task a))).
Proof.
  apply (handled_records_were_logged demo_task demo_init true 20 false 2
           (map PyArgs [1; 2; 3; 4]) demo_schedule "x.y" warning).
  vm_compute. tauto.
Defined.

Lemma execute_delivers {E B Args Value : Type}
  (task : Args -> list LogRecord * outcome E B Value)
  (user_init : list LogRecord * option (thrown E B))
  (has_SIGBUS : bool) (root_level : Z) (use_threads : bool) (max_workers : Z)
  (task_arguments : list (object Args)) (schedule : list (list ready_object))
  (trace : list (event E Args Value)) :
  use_threads && (max_workers =? 1)%Z = false ->
  _execute task user_init has_SIGBUS root_level use_threads max_workers
    task_arguments schedule = (trace, Returned) ->
  exists grouped,
    grouped_args (E:=E) max_workers task_arguments = Ok grouped
    /\ Permutation (finished trace)
         (flat_map
            (fun c => results (channel task user_init has_SIGBUS root_level grouped c))
            (seq 0 (length grouped))).
Proof.
  intros Hmode Hrun.
  destruct (grouped_args (E:=E) max_workers task_arguments) as [grouped|e] eqn:Hg.
  2:{ unfold _execute in Hrun. rewrite Hmode, Hg in Hrun. discriminate Hrun. }
  exists grouped. split; [reflexivity|].
  destruct grouped as [|chunk grouped].
  { unfold _execute in Hrun. rewrite Hmode, Hg in Hrun. injection Hrun as <-.
    reflexivity. }
  pose proof (initial_state_orderly task user_init has_SIGBUS root_level
                max_workers task_arguments (chunk :: grouped) Hg) as Horderly.
  destruct (execute_trace task user_init has_SIGBUS root_level use_threads
              max_workers task_arguments schedule (chunk :: grouped) Hmode Hg)
    as [closing [Hfst [Hsnd Hclosing]]]; [discriminate|].
  rewrite Hrun in Hfst, Hsnd. cbn [fst snd] in Hfst, Hsnd. subst trace.
  destruct (receive_loop _ schedule _) as [evs final] eqn:Hloop.
  cbn [fst snd] in *. subst final.
  apply (receive_loop_delivers _ schedule _ evs Horderly) in Hloop.
  rewrite !finished_app, finished_create_workers, finished_started.
  cbn [app finished]. rewrite finished_app.
  assert (Hnone : finished closing = []).
  { destruct Hclosing as [-> | [-> | ->]]; try reflexivity.
    cbn [finished]. apply finished_joined. }
  rewrite Hnone, app_nil_r. exact Hloop.
Qed.



(** X11: when the initializer returns and the task returns on every argument
    tuple, a multi-process run with [W >= 1] that returns normally has called
    the callback exactly once per argument tuple that is not [None], with the
    value of the task on it; the order alone depends on the scheduling. *)
Theorem all_results_delivered {E B Args Value : Type}
  (task : Args -> list LogRecord * outcome E B Value)
  (user_init : list LogRecord * option (thrown E B))
  (has_SIGBUS : bool) (root_level : Z) (use_threads : bool) (max_workers : Z)
  (task_arguments : list (object Args)) (schedule : list (list ready_object))
  (value : object Args -> Value) (trace : list (event E Args Value)) :
  (1 <= max_workers)%Z ->
  use_threads && (max_workers =? 1)%Z = false ->
  snd user_init = None ->
  (forall a, In a task_arguments -> is_not_None a = true ->
             snd (call task a) = Returns (value a)) ->
  _execute task user_init has_SIGBUS root_level use_threads max_workers
    task_arguments schedule = (trace, Returned) ->
  Permutation (finished trace)
    (map (fun a => ResultObject (value a)) (filter is_not_None task_arguments)).
Proof.
  intros HW Hmode Hinit Hvalue Hrun.
  destruct (execute_delivers task user_init has_SIGBUS
              root_level use_threads max_workers task_arguments schedule trace
              Hmode Hrun) as [grouped [Hg Hperm]].
  rewrite Hperm.
  rewrite (flat_map_same _
             (fun c => map (fun a => ResultObject (value a))
                         (worker_args (nth c grouped []))))
    by (intros c _; now apply (channel_results task user_init has_SIGBUS root_level
                                 value max_workers task_arguments)).
  rewrite (flat_map_nth_seq
             (fun group => map (fun a => ResultObject (value a)) (worker_args group))).
  rewrite flat_map_map_concat. apply Permutation_map.
  now apply (groups_concat (E:=E) max_workers).
Qed.

Lemma all_results_delivered_witness :
  Permutation
    (finished (fst (demo_execute false 2 (map PyArgs [1; 2; 5; 4]) poll_both)))
    (map (fun a => ResultObject
                     (match a with PyArgs n => 2 * n | PyNone => 0 end))
       (filter is_not_None (map PyArgs [1; 2; 5; 4]))).
Proof.
  apply (all_results_delivered demo_task demo_init true 20 false 2
           (map PyArgs [1; 2; 5; 4]) poll_both
           (fun a => match a with PyArgs n => 2 * n | PyNone => 0 end)).
  - lia.
  - reflexivity.
  - reflexivity.
  - intros a Ha _. cbn in Ha.
    repeat (destruct Ha as [<-|Ha]; [reflexivity|]). destruct Ha.
  - reflexivity.
Defined.

(** X12: when the initializer raises in the workers, a multi-process run
    never calls the callback, never asks a process to terminate, and never
    raises a task's error: the failure of the initializer does not reach the
    caller through the channel. *)
Theorem failed_initializer_goes_unreported {E B Args Value : Type}
  (task : Args -> list LogRecord * outcome E B Value)
  (user_init : list LogRecord * option (thrown E B))
  (has_SIGBUS : bool) (root_level : Z) (use_threads : bool) (max_workers : Z)
  (task_arguments : list (object Args)) (schedule : list (list ready_object))
  (t : thrown E B) :
  snd user_init = Some t ->
  use_threads && (max_workers =? 1)%Z = false ->
  let run := _execute task user_init has_SIGBUS root_level use_threads max_workers
               task_arguments schedule in
  Forall (fun ev => is_TaskFinished ev = false /\ is_Terminated ev = false) (fst run)
  /\ forall x, snd run <> Raised (Error (TaskError x)).
Proof.
  intros Hinit Hmode. cbv zeta.
  assert (Hlogs : forall grouped c m,
             grouped_args (E:=E) max_workers task_arguments = Ok grouped ->
             In m (channel task user_init has_SIGBUS root_level grouped c) ->
             exists r, m = (Str "log", RecordObject r)).
  { intros grouped c m Hg Hm.
    apply (channel_message task user_init has_SIGBUS root_level max_workers
             task_arguments grouped c m Hg) in Hm
      as [[r [_ ->]]|[[Hnone _]|[Hnone _]]]; [now exists r | congruence | congruence]. }
  split.
  - apply Forall_forall. intros ev Hev.
    apply (execute_answers task user_init has_SIGBUS root_level use_threads
             max_workers task_arguments schedule ev Hmode) in Hev
      as [H|[->|[->|[[p ->]|[grouped [Hg Hans]]]]]]; try (split; reflexivity).
    + destruct ev; try discriminate H; split; reflexivity.
    + destruct ev; try (split; reflexivity); cbn [answers pending] in Hans.
      * destruct Hans as [c Hc]. destruct (Hlogs grouped c _ Hg Hc) as [r H].
        discriminate H.
      * destruct Hans as [c [q Hc]]. destruct (Hlogs grouped c _ Hg Hc) as [r H].
        discriminate H.
  - intros x Hraised.
    destruct (grouped_args (E:=E) max_workers task_arguments) as [grouped|e] eqn:Hg.
    2:{ unfold _execute in Hraised. rewrite Hmode, Hg in Hraised. cbn [snd] in Hraised.
        apply grouped_args_raises in Hg. subst e. discriminate Hraised. }
    destruct grouped as [|chunk grouped].
    { unfold _execute in Hraised. rewrite Hmode, Hg in Hraised. discriminate Hraised. }
    destruct (execute_trace task user_init has_SIGBUS root_level use_threads
                max_workers task_arguments schedule (chunk :: grouped) Hmode Hg)
      as [closing [_ [Hsnd _]]]; [discriminate|].
    rewrite Hsnd in Hraised.
    destruct (receive_loop _ schedule _) as [evs final] eqn:Hloop.
    apply receive_loop_answers in Hloop as [_ Hfinal]. cbn [snd] in Hraised.
    destruct (Hfinal x Hraised) as [c Hc]. cbn [pending] in Hc.
    destruct (Hlogs (chunk :: grouped) c _ eq_refl Hc) as [r H]. discriminate H.
Qed.

Lemma failed_initializer_goes_unreported_witness :
  let run := _execute demo_task failing_init true 20 false 2
               (map PyArgs [1; 2; 3; 4]) demo_schedule in
  Forall (fun ev => is_TaskFinished ev = false /\ is_Terminated ev = false) (fst run)
  /\ forall x, snd run <> Raised (Error (TaskError x)).
Proof.
  apply (failed_initializer_goes_unreported demo_task failing_init true 20 false 2
           (map PyArgs [1; 2; 3; 4]) demo_schedule
           (Error (TaskError "no tesseract"%string))); reflexivity.
Defined.



Section Draining.
Context {E B Args Value : Type}.
Implicit Types (st : receiving E Value) (processes : list Process).
Implicit Types (c : Connection) (cs : list Connection).
Implicit Types (ms : list (message E Value)) (m : message E Value).

Lemma dispatch_plain processes st c m st' :
  recv st c = Received m st' -> plain m ->
  exists evs, dispatch (Args:=Args) processes st (AConnection c) = (evs, Ok st').
Proof.
  intros Hrecv [[p ->]|[r ->]]; unfold dispatch; rewrite Hrecv; cbn; eauto.
Qed.

Lemma receive_loop_round processes c later st :
  connections st <> [] ->
  receive_loop (B:=B) (Args:=Args) processes ([AConnection c] :: later) st
  = match dispatch processes st (AConnection c) with
    | (evs, Raise e) => (evs, Raised (Error e))
    | (evs, Ok st') =>
        (evs ++ fst (receive_loop (B:=B) processes later st'),
         snd (receive_loop (B:=B) (Args:=Args) processes later st'))
    end.
Proof.
  intros Hne. cbn [receive_loop for_ready].
  destruct (connections st); [congruence|].
  destruct (dispatch processes st (AConnection c)) as [evs [st'|e]]; [|reflexivity].
  rewrite app_nil_r. now destruct (receive_loop processes later st').
Qed.

(** Emptying the channel of the first connection of the list. *)
Lemma drain_one processes c cs ms p later st :
  connections st = c :: cs ->
  pending st c = ms ++ [(Member complete, p)] -> Forall plain ms ->
  exists evs st',
    receive_loop (B:=B) (Args:=Args) processes
      (repeat [AConnection c] (length (pending st c)) ++ later) st
    = (evs ++ fst (receive_loop (B:=B) processes later st'),
       snd (receive_loop (B:=B) (Args:=Args) processes later st'))
    /\ connections st' = cs
    /\ forall c', c' <> c -> pending st' c' = pending st c'.
Proof.
  revert st. induction ms as [|m ms IH]; intros st Hconns Hpending Hplain.
  - rewrite Hpending. cbn [app length repeat].
    rewrite receive_loop_round by (rewrite Hconns; discriminate).
    unfold dispatch, recv. rewrite Hpending. cbn [app tag_eqb].
    unfold remove_connection. cbn [connections]. rewrite Hconns.
    cbn [list_remove]. rewrite Nat.eqb_refl.
    eexists [], _. split; [reflexivity|]. split; [reflexivity|].
    intros c' Hc'. cbn [pending]. destruct (Nat.eqb_spec c' c); [contradiction | reflexivity].
  - rewrite Hpending. cbn [app length repeat].
    rewrite receive_loop_round by (rewrite Hconns; discriminate).
    destruct (recv st c) as [|m' st1] eqn:Hrecv.
    { apply recv_eof in Hrecv. rewrite Hpending in Hrecv. discriminate Hrecv. }
    destruct (recv_received st c m' st1 Hrecv) as [Hhead [Hother Hconns1]].
    rewrite Hpending in Hhead. cbn [app] in Hhead. injection Hhead as <- Htail.
    destruct (dispatch_plain processes st c m st1 Hrecv) as [evs1 ->];
      [now inversion Hplain|].
    destruct (IH st1) as [evs [st' [Hloop [Hconns' Hpending']]]];
      [now rewrite Hconns1 | now symmetry | now inversion Hplain|].
    cbv beta iota. rewrite Htail, Hloop. cbn [fst snd].
    exists (evs1 ++ evs), st'. split; [now rewrite app_assoc|].
    split; [exact Hconns'|]. intros c' Hc'. rewrite (Hpending' c' Hc'). now apply Hother.
Qed.

Lemma drain_all processes cs later st :
  connections st = cs -> NoDup cs ->
  (forall c, In c cs ->
     exists ms p, pending st c = ms ++ [(Member complete, p)] /\ Forall plain ms) ->
  snd (receive_loop (B:=B) (Args:=Args) processes (drain (pending st) cs ++ later) st)
  = Returned.
Proof.
  revert st. induction cs as [|c cs IH]; intros st Hconns Hnodup Hchannels.
  - destruct (drain (pending st) [] ++ later); cbn [receive_loop]; now rewrite Hconns.
  - unfold drain. cbn [flat_map]. rewrite <- app_assoc.
    destruct (Hchannels c (or_introl eq_refl)) as [ms [p [Hpending Hplain]]].
    destruct (drain_one processes c cs ms p
                (flat_map (fun c' => repeat [AConnection c'] (length (pending st c'))) cs
                   ++ later) st Hconns Hpending Hplain)
      as [evs [st' [-> [Hconns' Hpending']]]].
    cbn [snd]. inversion Hnodup as [|? ? Hnotin Hnodup']. subst.
    rewrite (flat_map_same _
               (fun c' => repeat [AConnection c'] (length (pending st' c')))
               (connections st')).
    + apply (IH st' eq_refl Hnodup'). intros c' Hc'.
      rewrite Hpending' by (intros ->; contradiction). apply Hchannels. now right.
    + intros c' Hc'. rewrite Hpending' by (intros ->; contradiction). reflexivity.
Qed.

End Draining.

Section HealthyWorkers.
Context {E B Args Value : Type}.
Variable task : Args -> list LogRecord * outcome E B Value.
Variable user_init : list LogRecord * option (thrown E B).
Variables (has_SIGBUS : bool) (root_level : Z).

Lemma plain_logs (records : list LogRecord) :
  Forall plain (map (fun r => (Str "log", @RecordObject E Value r)) records).
Proof.
  apply Forall_forall. intros m Hm. apply in_map_iff in Hm as [r [<- _]].
  right. now exists r.
Qed.

Lemma run_tasks_plain (conn : Connection) (group : list (object Args)) values :
  Forall2 (fun a v => snd (call task a) = Returns v) group values ->
  exists ms,
    sent (fst (run_tasks task conn group)) = ms ++ [(Member complete, NoneObject)]
    /\ Forall plain ms.
Proof.
  induction 1 as [|a v group values Ha _ [ms [IH Hplain]]].
  - exists []. split; [reflexivity | constructor].
  - destruct (call task a) as [recs out] eqn:Hcall. cbn [snd] in Ha. subst out.
    rewrite (run_tasks_returns task conn a group recs v Hcall). cbn [fst sent].
    rewrite sent_app, sent_enqueue. cbn [sent]. rewrite IH.
    exists (map (fun r => (Str "log", RecordObject r)) recs
              ++ (Member result, ResultObject v) :: ms).
    split; [now rewrite <- app_assoc|].
    apply Forall_app. split; [apply plain_logs|].
    constructor; [left; now eexists | exact Hplain].
Qed.

Lemma healthy_channel (W : Z) (l : list (object Args)) grouped (c : Connection) :
  snd user_init = None ->
  (forall a, In a l -> is_not_None a = true ->
             exists v, snd (call task a) = Returns v) ->
  grouped_args (E:=E) W l = Ok grouped ->
  exists ms p,
    channel task user_init has_SIGBUS root_level grouped c
    = ms ++ [(Member complete, p)]
    /\ Forall plain ms.
Proof.
  intros Hinit Hreturns Hg. unfold channel.
  destruct (sent_process_loop task user_init has_SIGBUS c root_level
              (worker_args (nth c grouped [])) Hinit) as [-> _].
  assert (Hvalues : exists values,
             Forall2 (fun a v => snd (call task a) = Returns v)
               (worker_args (nth c grouped [])) values).
  { assert (Hin : forall a, In a (worker_args (nth c grouped [])) ->
                            exists v, snd (call task a) = Returns v).
    { intros a Ha. destruct (group_in_input W l grouped c a Hg Ha). auto. }
    induction (worker_args (nth c grouped [])) as [|a group IH].
    - exists []. constructor.
    - destruct (Hin a (or_introl eq_refl)) as [v Hv].
      destruct IH as [values Hvalues]; [intros a' Ha'; apply Hin; now right|].
      exists (v :: values). now constructor. }
  destruct Hvalues as [values Hvalues].
  destruct (run_tasks_plain c _ values Hvalues) as [ms [-> Hplain]].
  exists (sent (map (enqueue (Args:=Args) c) (fst user_init)) ++ ms), NoneObject.
  split; [now rewrite <- app_assoc|].
  apply Forall_app. split; [rewrite sent_enqueue; apply plain_logs | exact Hplain].
Qed.

End HealthyWorkers.

(** X14: when the initializer returns and the task returns on every argument
    tuple, [wait] can report the connections so that the run returns
    normally: it does when each connection in turn is the only one ready
    until its worker has said [complete]. *)
Theorem healthy_run_returns {E B Args Value : Type}
  (task : Args -> list LogRecord * outcome E B Value)
  (user_init : list LogRecord * option (thrown E B))
  (has_SIGBUS : bool) (root_level : Z) (use_threads : bool) (max_workers : Z)
  (task_arguments : list (object Args)) :
  (0 <= max_workers)%Z ->
  use_threads && (max_workers =? 1)%Z = false ->
  snd user_init = None ->
  (forall a, In a task_arguments -> is_not_None a = true ->
             exists v, snd (call task a) = Returns v) ->
  exists grouped,
    grouped_args (E:=E) max_workers task_arguments = Ok grouped
    /\ snd (_execute task user_init has_SIGBUS root_level use_threads max_workers
              task_arguments
              (drain (channel task user_init has_SIGBUS root_level grouped)
                 (seq 0 (length grouped))))
       = Returned.
Proof.
  intros HW Hmode Hinit Hreturns.
  destruct (grouped_args (E:=E) max_workers task_arguments) as [grouped|e] eqn:Hg.
  2:{ unfold grouped_args, split_every in Hg.
      destruct (Z.ltb_spec max_workers 0); [lia | discriminate]. }
  exists grouped. split; [reflexivity|].
  destruct grouped as [|chunk grouped].
  { unfold _execute. now rewrite Hmode, Hg. }
  destruct (execute_trace task user_init has_SIGBUS root_level use_threads
              max_workers task_arguments
              (drain (channel task user_init has_SIGBUS root_level (chunk :: grouped))
                 (seq 0 (length (chunk :: grouped))))
              (chunk :: grouped) Hmode Hg) as [closing [_ [-> _]]]; [discriminate|].
  pose proof (drain_all (B:=B) (Args:=Args) (seq 0 (length (chunk :: grouped)))
                (seq 0 (length (chunk :: grouped))) []
                {| connections := seq 0 (length (chunk :: grouped));
                   pending := channel task user_init has_SIGBUS root_level
                                (chunk :: grouped) |}
                eq_refl (seq_NoDup _ _)) as Hdrain.
  cbn [pending] in Hdrain. rewrite app_nil_r in Hdrain. apply Hdrain.
  intros c _. now apply (healthy_channel task user_init has_SIGBUS root_level
                           max_workers task_arguments).
Qed.

Lemma healthy_run_returns_witness :
  exists grouped,
    grouped_args (E:=string) 2 (map PyArgs [1; 2; 5; 4]) = Ok grouped
    /\ snd (demo_execute false 2 (map PyArgs [1; 2; 5; 4])
              (drain (channel demo_task demo_init true 20 grouped)
                 (seq 0 (length grouped))))
       = Returned.
Proof.
  apply (healthy_run_returns demo_task demo_init true 20 false 2
           (map PyArgs [1; 2; 5; 4])); [lia | reflexivity | reflexivity |].
  intros a Ha _. cbn in Ha.
  repeat (destruct Ha as [<-|Ha]; [eexists; reflexivity|]). destruct Ha.
Defined.
